(** * A shallow embedding of [server/servidor.py] (the photo receiving server)

    The Python class [PhotoServer] is modelled by explicit state passing:
    every method becomes a computation in a small state-and-exception
    monad over the part of the world it touches (the client socket, the
    file system, the clock, the Tk callback queue and the console). *)

From Stdlib Require Import ZArith NArith List Lia Bool.
From Stdlib Require Import Strings.Byte Strings.Ascii Strings.String.
From stdpp Require Import gmap strings list.

Local Open Scope N_scope.

(** ** Bytes and Python values *)

Abbreviation bytes := (list byte).

(** [len(data)] as a Python integer. *)
Definition len (data : bytes) : N := N.of_nat (length data).

(** Truth value of a [bytes] object: [b''] is false. *)
Definition truthy_bytes (data : bytes) : bool :=
  match data with [] => false | _ :: _ => true end.

(** Truth value of what [_receive_all] returns: [None] and [b''] are false. *)
Definition truthy (v : option bytes) : bool :=
  match v with None => false | Some data => truthy_bytes data end.

(** ** Exceptions *)

Inductive os_errno :=
  | ENOENT | ENOTDIR | EISDIR | EEXIST | EACCES | ENOSPC
  | ECONNRESET | EPIPE | EBADF | EMFILE.

(** The exceptions the modelled operations raise; all of them derive
    from [Exception], and [OSError] carries the errno of its subclass. *)
Inductive exn :=
  | OSError (e : os_errno)
  | StructError
  | AttributeError.

Definition is_OSError (e : exn) : bool :=
  match e with OSError _ => true | _ => false end.

Definition is_FileExistsError (e : exn) : bool :=
  match e with OSError EEXIST => true | _ => false end.

(** ** The monad: state, exceptions, and fuel for [while] loops *)

Inductive result (S A : Type) :=
  | Ret (a : A) (s : S)
  | Raise (e : exn) (s : S)
  | OutOfFuel.
Arguments Ret {S A} a s.
Arguments Raise {S A} e s.
Arguments OutOfFuel {S A}.

Definition M (S A : Type) := S -> result S A.

Definition ret {S A} (a : A) : M S A := fun s => Ret a s.
Definition raise {S A} (e : exn) : M S A := fun s => Raise e s.

Definition bind {S A B} (m : M S A) (k : A -> M S B) : M S B :=
  fun s =>
    match m s with
    | Ret a s' => k a s'
    | Raise e s' => Raise e s'
    | OutOfFuel => OutOfFuel
    end.

Declare Scope py_scope.
Delimit Scope py_scope with py.
Notation "x <- m ;; k" := (bind m (fun x => k))
  (at level 100, m at next level, right associativity) : py_scope.
Notation "m ;;; k" := (bind m (fun _ => k))
  (at level 100, right associativity) : py_scope.

Definition get {S} : M S S := fun s => Ret s s.
Definition modify {S} (f : S -> S) : M S unit := fun s => Ret tt (f s).

(** [try: body except Exception as e: handler e]. *)
Definition try_except {S A} (body : M S A) (handler : exn -> M S A) : M S A :=
  fun s =>
    match body s with
    | Raise e s' => handler e s'
    | r => r
    end.

(** [try: body finally: fin]: [fin] runs on both exits; an exception of
    [fin] replaces the pending one. *)
Definition try_finally {S A} (body : M S A) (fin : M S unit) : M S A :=
  fun s =>
    match body s with
    | Ret a s' => bind fin (fun _ => ret a) s'
    | Raise e s' => bind fin (fun _ => raise e) s'
    | OutOfFuel => OutOfFuel
    end.

(** [try: body except <class>: handler], for the exceptions [catches] holds of. *)
Definition try_except_of {S A} (catches : exn -> bool)
    (body : M S A) (handler : exn -> M S A) : M S A :=
  try_except body (fun e => if catches e then handler e else raise e).

(** Running a computation on part of the state. *)
Definition zoom {S T A} (proj : S -> T) (inj : T -> S -> S) (m : M T A) : M S A :=
  fun s =>
    match m (proj s) with
    | Ret a t => Ret a (inj t s)
    | Raise e t => Raise e (inj t s)
    | OutOfFuel => OutOfFuel
    end.

(** ** The client socket *)

(** What one [recv] call finds: the bytes that have arrived so far, or a
    failure of the connection. An exhausted list is a closed peer. *)
Inductive recv_event :=
  | Chunk (c : bytes)
  | RecvFail (e : os_errno).

Record socket := mkSocket {
  inbound : list recv_event;   (* what the next [recv] calls will find *)
  requested : list N;          (* the [bufsize] of every [recv] so far *)
  peer_open : bool;            (* whether [send] still reaches the peer *)
  sent : bytes;                (* everything sent to the peer *)
  closed : bool                (* [close()] has been called *)
}.

Definition set_inbound (i : list recv_event) (s : socket) : socket :=
  mkSocket i (requested s) (peer_open s) (sent s) (closed s).
Definition log_request (k : N) (s : socket) : socket :=
  mkSocket (inbound s) (requested s ++ [k]) (peer_open s) (sent s) (closed s).
Definition add_sent (d : bytes) (s : socket) : socket :=
  mkSocket (inbound s) (requested s) (peer_open s) (sent s ++ d) (closed s).
Definition set_closed (s : socket) : socket :=
  mkSocket (inbound s) (requested s) (peer_open s) (sent s) true.

(** A connection as [accept] hands it over. *)
Definition accepted (events : list recv_event) (peer : bool) : socket :=
  mkSocket events [] peer [] false.

(** [sock.recv(bufsize)]: at most [bufsize] of the bytes that have
    arrived; [b''] when the peer has closed. *)
Definition recv (bufsize : N) : M socket bytes :=
  fun s =>
    let s := log_request bufsize s in
    match inbound s with
    | [] => Ret [] s
    | RecvFail e :: rest => Raise (OSError e) (set_inbound rest s)
    | Chunk c :: rest =>
        if len c <=? bufsize then Ret c (set_inbound rest s)
        else Ret (take (N.to_nat bufsize) c)
                 (set_inbound (Chunk (drop (N.to_nat bufsize) c) :: rest) s)
    end.

(** [sock.send(data)]. *)
Definition send (data : bytes) : M socket N :=
  fun s =>
    if peer_open s then Ret (len data) (add_sent data s)
    else Raise (OSError EPIPE) s.

(** [sock.close()]. *)
Definition close : M socket unit := modify set_closed.

(** ** [PhotoServer._receive_all] *)

(** The [while len(data) < size] loop; [fuel] bounds the number of times
    the loop condition is evaluated. *)
Fixpoint receive_loop (fuel : nat) (size : N) (data : bytes) : M socket (option bytes) :=
  match fuel with
  | O => fun _ => OutOfFuel
  | S fuel' =>
      if len data <? size then
        (chunk <- recv (size - len data) ;;
         if negb (truthy_bytes chunk) then ret None
         else receive_loop fuel' size (data ++ chunk))%py
      else ret (Some data)
  end.

(** Every pass of the loop but the last consumes one pending event, so
    two more evaluations of the condition than there are events suffice
    (see [receive_all_total]). *)
Definition _receive_all (size : N) : M socket (option bytes) :=
  fun s => receive_loop (S (S (length (inbound s)))) size [] s.

(** ** [struct.unpack('>I', data)] and the sender's header *)

Definition struct_unpack_I (data : bytes) : exn + N :=
  match data with
  | [b0; b1; b2; b3] =>
      inr (Byte.to_N b0 * 2 ^ 24 + Byte.to_N b1 * 2 ^ 16
           + Byte.to_N b2 * 2 ^ 8 + Byte.to_N b3)
  | _ => inl StructError
  end.

Definition byte_of_N (n : N) : byte :=
  match Byte.of_N (n mod 256) with Some b => b | None => x00 end.

(** Modelled from the spec: the sender is not among the sources; it
    "sends 4 bytes, big-endian unsigned 32-bit integer = payload byte
    length", that is [struct.pack('>I', n)]. *)
Definition struct_pack_I (n : N) : bytes :=
  [byte_of_N (n / 2 ^ 24); byte_of_N (n / 2 ^ 16); byte_of_N (n / 2 ^ 8); byte_of_N n].

(** ** The clock: [datetime.now()] and [strftime] *)

Record datetime := mkDatetime {
  year : nat; month : nat; day : nat;
  hour : nat; minute : nat; second : nat
}.

Definition digit (d : nat) : ascii := ascii_of_nat (48 + d mod 10).

(** The [width] low decimal digits of [n], zero padded. *)
Fixpoint zero_padded (width n : nat) : string :=
  match width with
  | O => EmptyString
  | S w => zero_padded w (n / 10) +:+ String (digit n) EmptyString
  end.

(** [strftime('%Y-%m-%d')]; [datetime.now()] has a four digit year. *)
Definition strftime_Ymd (t : datetime) : string :=
  zero_padded 4 (year t) +:+ "-" +:+ zero_padded 2 (month t)
    +:+ "-" +:+ zero_padded 2 (day t).

(** [strftime('%H%M%S')]. *)
Definition strftime_HMS (t : datetime) : string :=
  zero_padded 2 (hour t) +:+ zero_padded 2 (minute t) +:+ zero_padded 2 (second t).

(** ** The file system *)

(** An absolute path, as the list of its components; [[]] is the root. *)
Abbreviation path := (list string).

(** [os.path.join(a, *parts)] for relative [parts]. *)
Definition os_path_join (a : path) (parts : list string) : path := a ++ parts.

(** The head of [os.path.split(p)]. *)
Definition os_path_dirname (p : path) : path := removelast p.

Inductive node :=
  | Dir
  | File (content : bytes).

Record filesystem := mkFs {
  nodes : gmap path node;
  free_space : N
}.

Definition node_at (fs : filesystem) (p : path) : option node :=
  match p with [] => Some Dir | _ => nodes fs !! p end.

Definition path_exists (fs : filesystem) (p : path) : bool :=
  match node_at fs p with Some _ => true | None => false end.

Definition path_isdir (fs : filesystem) (p : path) : bool :=
  match node_at fs p with Some Dir => true | _ => false end.

Definition put_node (p : path) (n : node) (fs : filesystem) : filesystem :=
  mkFs (<[p := n]> (nodes fs)) (free_space fs).

Definition use_space (k : N) (fs : filesystem) : filesystem :=
  mkFs (nodes fs) (free_space fs - k).

(** What creating an entry at [p] needs of the directory above it. *)
Definition check_parent (p : path) : M filesystem unit :=
  fun fs =>
    match node_at fs (os_path_dirname p) with
    | None => Raise (OSError ENOENT) fs
    | Some (File _) => Raise (OSError ENOTDIR) fs
    | Some Dir => Ret tt fs
    end.

(** [os.mkdir(p)]. *)
Definition os_mkdir (p : path) : M filesystem unit :=
  (fs <- get ;;
   if path_exists fs p then raise (OSError EEXIST)
   else (check_parent p ;;; modify (put_node p Dir)))%py.

(** The last step of [os.makedirs]:
    [try: mkdir(name) except OSError: if not exist_ok or not isdir(name): raise]. *)
Definition mkdir_exist_ok (name : path) (exist_ok : bool) : M filesystem unit :=
  try_except (os_mkdir name)
    (fun e =>
       if is_OSError e then
         (fs <- get ;;
          if negb exist_ok || negb (path_isdir fs name) then raise e else ret tt)%py
       else raise e).

(** [os.makedirs], by recursion on the reversed path: the head is created
    first when it does not exist, a [FileExistsError] from that is passed
    over, then the leaf is made. *)
Fixpoint makedirs_rev (rname : list string) (exist_ok : bool) : M filesystem unit :=
  match rname with
  | [] => mkdir_exist_ok [] exist_ok
  | tail :: rhead =>
      (fs <- get ;;
       (if negb (path_exists fs (rev rhead)) then
          try_except (makedirs_rev rhead exist_ok)
            (fun e => if is_FileExistsError e then ret tt else raise e)
        else ret tt) ;;;
       mkdir_exist_ok (rev (tail :: rhead)) exist_ok)%py
  end.

Definition os_makedirs (name : path) (exist_ok : bool) : M filesystem unit :=
  makedirs_rev (rev name) exist_ok.

(** [open(p, 'wb')]: create or truncate. *)
Definition open_wb (p : path) : M filesystem path :=
  (fs <- get ;;
   if path_isdir fs p then raise (OSError EISDIR)
   else (check_parent p ;;; modify (put_node p (File [])) ;;; ret p))%py.

(** [f.write(data)] on a file just opened with ['wb']. When the disk is
    too full, what fits is written before the error. *)
Definition file_write (f : path) (data : bytes) : M filesystem N :=
  (fs <- get ;;
   if free_space fs <? len data then
     (modify (fun fs => use_space (free_space fs)
                          (put_node f (File (take (N.to_nat (free_space fs)) data)) fs)) ;;;
      raise (OSError ENOSPC))
   else (modify (fun fs => use_space (len data) (put_node f (File data) fs)) ;;;
         ret (len data)))%py.

(** Leaving the [with] block closes the file. *)
Definition file_close (f : path) : M filesystem unit := ret tt.

(** ** The world a handler runs in *)

Definition address : Type := string * N.

(** The lines the server prints. *)
Inductive line :=
  | PrintImageSize (n : N)
  | PrintSaved (filepath : path)
  | PrintSaveError (e : exn)
  | PrintClientError (a : address) (e : exn).

(** A callback scheduled with [root.after(0, self._update_display, ...)]. *)
Record tk_call := mkCall {
  call_image : bytes; call_path : path; call_from : address
}.

Record world := mkWorld {
  client : socket;          (* the connection being handled *)
  disk : filesystem;
  now : datetime;           (* what [datetime.now()] returns *)
  script_dir : path;        (* [os.path.dirname(os.path.abspath(__file__))] *)
  tk_queue : list tk_call;  (* callbacks waiting for the GUI thread *)
  stdout : list line
}.

Definition set_client (c : socket) (w : world) : world :=
  mkWorld c (disk w) (now w) (script_dir w) (tk_queue w) (stdout w).
Definition set_disk (d : filesystem) (w : world) : world :=
  mkWorld (client w) d (now w) (script_dir w) (tk_queue w) (stdout w).
Definition set_now (t : datetime) (w : world) : world :=
  mkWorld (client w) (disk w) t (script_dir w) (tk_queue w) (stdout w).
Definition add_call (c : tk_call) (w : world) : world :=
  mkWorld (client w) (disk w) (now w) (script_dir w) (tk_queue w ++ [c]) (stdout w).
Definition add_line (l : line) (w : world) : world :=
  mkWorld (client w) (disk w) (now w) (script_dir w) (tk_queue w) (stdout w ++ [l]).

Definition on_client {A} (m : M socket A) : M world A := zoom client set_client m.
Definition on_disk {A} (m : M filesystem A) : M world A := zoom disk set_disk m.
Definition print (l : line) : M world unit := modify (add_line l).
Definition root_after (c : tk_call) : M world unit := modify (add_call c).
Definition lift_exn {S A} (r : exn + A) : M S A :=
  match r with inl e => raise e | inr a => ret a end.

(** ** The server object *)

(** The listening socket, as far as the accept loop can tell. *)
Record listener := mkListener {
  bound_to : address;
  backlog : nat;
  reuse_addr : bool;
  listener_closed : bool
}.

Record PhotoServer := mkServer {
  host : string;
  port : N;
  server_socket : option listener;
  running : bool;
  data_dir : path
}.

Definition set_data_dir (d : path) (self : PhotoServer) : PhotoServer :=
  mkServer (host self) (port self) (server_socket self) (running self) d.
Definition set_running (b : bool) (self : PhotoServer) : PhotoServer :=
  mkServer (host self) (port self) (server_socket self) b (data_dir self).
Definition set_server_socket (l : option listener) (self : PhotoServer) : PhotoServer :=
  mkServer (host self) (port self) l (running self) (data_dir self).

(** [PhotoServer.create_data_directory]. *)
Definition create_data_directory (self : PhotoServer) : M world PhotoServer :=
  (w <- get ;;
   let base_dir := script_dir w in
   let today := strftime_Ymd (now w) in
   let self := set_data_dir (os_path_join base_dir ["data"; today]) self in
   on_disk (os_makedirs (data_dir self) true) ;;;
   ret self)%py.

(** [PhotoServer.__init__], without the widgets. *)
Definition __init__ (host : string) (port : N) : M world PhotoServer :=
  create_data_directory (mkServer host port None false []).

(** [with open(filepath, 'wb') as f: f.write(image_data)]. *)
Definition write_image (filepath : path) (image_data : bytes) : M filesystem unit :=
  (f <- open_wb filepath ;;
   try_finally (file_write f image_data ;;; ret tt) (file_close f))%py.

(** [PhotoServer._save_and_display_image]. *)
Definition _save_and_display_image (self : PhotoServer)
    (image_data : bytes) (client_address : address) : M world unit :=
  try_except
    (w <- get ;;
     let timestamp := strftime_HMS (now w) in
     let filename := timestamp +:+ ".jpg" in
     let filepath := os_path_join (data_dir self) [filename] in
     on_disk (write_image filepath image_data) ;;;
     print (PrintSaved filepath) ;;;
     root_after (mkCall image_data filepath client_address))%py
    (fun e => print (PrintSaveError e)).

(** The acknowledgement [b"OK"]. *)
Definition OK : bytes := ["O"; "K"]%byte.

(** [PhotoServer._handle_client]. The two [if not ...: return] tests are
    the [None] and [b''] branches of the matches. *)
Definition _handle_client (self : PhotoServer) (client_address : address) : M world unit :=
  try_finally
    (try_except
       (size_data <- on_client (_receive_all 4) ;;
        match size_data with
        | None | Some [] => ret tt
        | Some ((_ :: _) as size_data) =>
            image_size <- lift_exn (struct_unpack_I size_data) ;;
            print (PrintImageSize image_size) ;;;
            image_data <- on_client (_receive_all image_size) ;;
            match image_data with
            | None | Some [] => ret tt
            | Some ((_ :: _) as image_data) =>
                _save_and_display_image self image_data client_address ;;;
                on_client (send OK) ;;;
                ret tt
            end
        end)%py
       (fun e => print (PrintClientError client_address e)))
    (on_client close).

(** ** The accept loop and the two threads around it *)

(** What the console shows of the listener's life. *)
Inductive message :=
  | Parando                 (* "Parando o servidor..." *)
  | Iniciado                (* "Servidor iniciado em ..." *)
  | Conectado (a : address) (* "Cliente conectado: ..." *)
  | Parado                  (* "Servidor foi parado." *)
  | ErroAceitar             (* "Erro ao aceitar conexão." *)
  | ErroCritico (e : exn).  (* "Erro crítico no servidor: ..." *)

(** Where the thread that runs [_run_server] stands. *)
Inductive server_pc :=
  | NoThread          (* [start_server] has not been called *)
  | Setup             (* about to create, bind and listen *)
  | LoopTest          (* at [while self.running] *)
  | InAccept          (* at the call [self.server_socket.accept()] *)
  | Blocked           (* inside that call, waiting for a connection *)
  | Returned          (* [_run_server] has returned *)
  | Crashed (e : exn) (* an exception has left [_run_server] *).

(** Where the main thread stands in [run]. *)
Inductive main_pc :=
  | BeforeStart       (* the object is built, [run] not yet entered *)
  | Mainloop          (* in [root.mainloop()] *)
  | Stopping          (* in [stop_server], after [self.running = False] *)
  | Finished          (* [root.quit()] has been called *).

Record system := mkSystem {
  self : PhotoServer;
  server_thread : server_pc;
  main_thread : main_pc;
  handlers : list (socket * address);  (* the client threads started *)
  console : list message
}.

Definition set_self (p : PhotoServer) (s : system) : system :=
  mkSystem p (server_thread s) (main_thread s) (handlers s) (console s).
Definition set_server_thread (pc : server_pc) (s : system) : system :=
  mkSystem (self s) pc (main_thread s) (handlers s) (console s).
Definition set_main_thread (pc : main_pc) (s : system) : system :=
  mkSystem (self s) (server_thread s) pc (handlers s) (console s).
Definition add_handler (h : socket * address) (s : system) : system :=
  mkSystem (self s) (server_thread s) (main_thread s) (handlers s ++ [h]) (console s).
Definition add_message (m : message) (s : system) : system :=
  mkSystem (self s) (server_thread s) (main_thread s) (handlers s) (console s ++ [m]).

Definition say (m : message) : M system unit := modify (add_message m).
Definition on_self (f : PhotoServer -> PhotoServer) : M system unit :=
  modify (fun s => set_self (f (self s)) s).

(** What the network does to a blocking call of the server thread. *)
Inductive outcome :=
  | Connects (c : socket) (a : address)
  | Fails (e : os_errno)
  | Nothing.

Definition close_listener (l : listener) : listener :=
  mkListener (bound_to l) (backlog l) (reuse_addr l) true.

(** [PhotoServer.start_server]. *)
Definition start_server : M system unit :=
  (on_self (set_running true) ;;;
   modify (set_server_thread Setup))%py.

(** [PhotoServer.stop_server], in the two parts another thread can come
    between: up to [self.running = False], and from there on. *)
Definition stop_server_flag : M system unit :=
  (say Parando ;;;
   on_self (set_running false))%py.

Definition stop_server_close : M system unit :=
  (s <- get ;;
   (match server_socket (self s) with
    | Some l => on_self (set_server_socket (Some (close_listener l)))
    | None => ret tt
    end) ;;;
   modify (set_main_thread Finished))%py.

Definition stop_server : M system unit :=
  (stop_server_flag ;;; stop_server_close)%py.

(** A socket as [socket.socket()] returns it: open, with no address yet
    (its name is 0.0.0.0:0), not listening. *)
Definition new_socket : listener := mkListener ("0.0.0.0"%string, 0) 0 false false.

(** The first lines of [_run_server]. The new socket is assigned to
    [self.server_socket] first; [SO_REUSEADDR] is set; then come [bind]
    and [listen(5)], which is where [Fails] strikes, with the attribute
    already set. *)
Definition open_listener (o : outcome) : M system unit :=
  (on_self (set_server_socket (Some new_socket)) ;;;
   on_self (set_server_socket
              (Some (mkListener (bound_to new_socket) (backlog new_socket) true false))) ;;;
   s <- get ;;
   match o with
   | Fails e => raise (OSError e)
   | _ =>
       on_self (set_server_socket
                  (Some (mkListener (host (self s), port (self s)) 5 true false))) ;;;
       say Iniciado
   end)%py.

(** [self.server_socket.accept()]. A call made on a closed socket raises
    at once. A call that is already [waiting] is not woken when another
    thread closes the socket: it returns the next connection, or fails
    when the system makes it fail. [None] stands for a call that goes on
    waiting. *)
Definition accept (waiting : bool) (o : outcome) : M system (option (socket * address)) :=
  (s <- get ;;
   match server_socket (self s) with
   | None => raise AttributeError
   | Some l =>
       if negb waiting && listener_closed l then raise (OSError EBADF)
       else match o with
            | Connects c a => ret (Some (c, a))
            | Fails e => raise (OSError e)
            | Nothing => ret None
            end
   end)%py.

(** One pass through the body of [while self.running], giving where the
    thread stands next: [Returned] after [break], [Blocked] while
    [accept] has nothing to return. *)
Definition accept_pass (waiting : bool) (o : outcome) : M system server_pc :=
  try_except_of is_OSError
    (conn <- accept waiting o ;;
     match conn with
     | None => ret Blocked
     | Some (client_socket, client_address) =>
         say (Conectado client_address) ;;;
         modify (add_handler (client_socket, client_address)) ;;;
         ret LoopTest
     end)%py
    (fun _ =>
       (s <- get ;;
        (if negb (running (self s)) then say Parado else say ErroAceitar) ;;;
        ret Returned)%py).

(** One step of the thread running [_run_server], inside its outer
    [try: ... except Exception as e: print(...)]. *)
Definition _run_server_step (o : outcome) : M system server_pc :=
  try_except
    (s <- get ;;
     match server_thread s with
     | Setup => open_listener o ;;; ret LoopTest
     | LoopTest => if running (self s) then ret InAccept else ret Returned
     | InAccept => accept_pass false o
     | Blocked => accept_pass true o
     | pc => ret pc
     end)%py
    (fun e => (say (ErroCritico e) ;;; ret Returned)%py).

(** What the scheduler and the user do next. *)
Inductive event :=
  | RunCalled                  (* [run] calls [start_server], enters the main loop *)
  | StopPressed                (* the button or the window close calls [stop_server] *)
  | StopGoesOn                 (* [stop_server] goes on after setting the flag *)
  | ServerRuns (o : outcome).  (* the server thread takes its next step *)

Definition commit {A} (m : M system A) (after : A -> system -> system) (s : system) : system :=
  match m s with
  | Ret a s' => after a s'
  | Raise e s' => set_server_thread (Crashed e) s'
  | OutOfFuel => s
  end.

Definition step (ev : event) (s : system) : system :=
  match ev, main_thread s with
  | RunCalled, BeforeStart =>
      commit start_server (fun _ => set_main_thread Mainloop) s
  | StopPressed, Mainloop =>
      match stop_server_flag s with
      | Ret _ s' => set_main_thread Stopping s'
      | _ => s
      end
  | StopGoesOn, Stopping =>
      match stop_server_close s with
      | Ret _ s' => s'
      | _ => s
      end
  | ServerRuns o, _ => commit (_run_server_step o) set_server_thread s
  | _, _ => s
  end.

Definition run_events (evs : list event) (s : system) : system :=
  fold_left (fun s ev => step ev s) evs s.

(** The flag after each event. *)
Fixpoint flag_trace (evs : list event) (s : system) : list bool :=
  running (self s) ::
  match evs with
  | [] => []
  | ev :: evs' => flag_trace evs' (step ev s)
  end.

(** How often a list of flags goes from [a] to [b]. *)
Fixpoint changes (a b : bool) (l : list bool) : nat :=
  match l with
  | x :: (y :: _) as l' =>
      (if eqb x a && eqb y b then 1 else 0)%nat + changes a b l'
  | _ => 0%nat
  end.

(** A server object as [__init__] leaves it, before [run]. *)
Definition fresh_system (p : PhotoServer) : system :=
  mkSystem (set_running false (set_server_socket None p)) NoThread BeforeStart [] [].

(** ** The window and [PhotoServer._update_display] *)

(** What the code uses of Pillow, which is not part of the sources:
    decoding ([Image.open], which raises on data that is no image),
    [Image.thumbnail] and [ImageTk.PhotoImage]. *)
Record Pillow := mkPillow {
  picture : Type;
  photo : Type;
  Image_open : bytes -> exn + picture;
  thumbnail : nat * nat -> picture -> picture;
  PhotoImage : picture -> exn + photo
}.

(** The text of [image_label]. *)
Inductive label_text :=
  | NoPhotoYet               (* "Nenhuma foto recebida ainda" *)
  | NoText                   (* "" *)
  | DisplayError (e : exn).  (* "Erro ao exibir imagem: ..." *)

(** What [info_label] tells: "Última foto: <name> | Tamanho: <size> bytes | De: <ip>". *)
Record info := mkInfo {
  info_name : string;
  info_size : N;
  info_from : string
}.

(** The title of the window: "Servidor de Fotos - " and then this. *)
Inductive title_text :=
  | Aguardando
  | Showing (name : string).

Record window (pil : Pillow) := mkWindow {
  label_image : option (photo pil);   (* [image_label]'s image option *)
  label_text_of : label_text;         (* [image_label]'s text option *)
  label_ref : option (photo pil);     (* the attribute [image_label.image] *)
  info_label : option info;           (* [None] is the empty text *)
  title : title_text;
  display_errors : list exn           (* the "Erro ao exibir imagem" lines printed *)
}.
Arguments mkWindow {pil}.
Arguments label_image {pil}.
Arguments label_text_of {pil}.
Arguments label_ref {pil}.
Arguments info_label {pil}.
Arguments title {pil}.
Arguments display_errors {pil}.

(** The widgets as [__init__] builds them. *)
Definition new_window (pil : Pillow) : window pil :=
  mkWindow None NoPhotoYet None None Aguardando [].

(** [os.path.basename]. *)
Definition os_path_basename (p : path) : string := List.last p EmptyString.

(** [image_label.configure(image=..., text=...)]. Tkinter passes on the
    options that are not [None], so [image=None] leaves the image option
    as it is. *)
Definition configure_image_label {pil : Pillow} (i : option (photo pil)) (t : label_text)
    (g : window pil) : window pil :=
  mkWindow (match i with Some ph => Some ph | None => label_image g end)
    t (label_ref g) (info_label g) (title g) (display_errors g).
Definition keep_reference {pil : Pillow} (ph : photo pil) (g : window pil) : window pil :=
  mkWindow (label_image g) (label_text_of g) (Some ph) (info_label g) (title g)
    (display_errors g).
Definition configure_info_label {pil : Pillow} (i : info) (g : window pil) : window pil :=
  mkWindow (label_image g) (label_text_of g) (label_ref g) (Some i) (title g)
    (display_errors g).
Definition set_title {pil : Pillow} (t : title_text) (g : window pil) : window pil :=
  mkWindow (label_image g) (label_text_of g) (label_ref g) (info_label g) t
    (display_errors g).
Definition print_display_error {pil : Pillow} (e : exn) (g : window pil) : window pil :=
  mkWindow (label_image g) (label_text_of g) (label_ref g) (info_label g) (title g)
    (display_errors g ++ [e]).

(** [PhotoServer._update_display], on the arguments [root.after] was given. *)
Definition _update_display {pil : Pillow} (c : tk_call) : M (window pil) unit :=
  try_except
    (image <- lift_exn (Image_open pil (call_image c)) ;;
     let display_size := (600, 400)%nat in
     let image := thumbnail pil display_size image in
     ph <- lift_exn (PhotoImage pil image) ;;
     modify (configure_image_label (Some ph) NoText) ;;;
     modify (keep_reference ph) ;;;
     let file_size := len (call_image c) in
     modify (configure_info_label
               (mkInfo (os_path_basename (call_path c)) file_size (fst (call_from c)))) ;;;
     modify (set_title (Showing (os_path_basename (call_path c)))))%py
    (fun e =>
       (modify (print_display_error e) ;;;
        modify (configure_image_label None (DisplayError e)))%py).

(** The main loop running the callbacks that wait, oldest first. *)
Fixpoint run_pending {pil : Pillow} (calls : list tk_call) : M (window pil) unit :=
  match calls with
  | [] => ret tt
  | c :: calls' => (_update_display c ;;; run_pending calls')%py
  end.

(** The payload of the call can be shown. *)
Definition displayable (pil : Pillow) (c : tk_call) : bool :=
  match Image_open pil (call_image c) with
  | inr image =>
      match PhotoImage pil (thumbnail pil (600, 400)%nat image) with
      | inr _ => true
      | inl _ => false
      end
  | inl _ => false
  end.

(** What [info_label] says of a call that is shown. *)
Definition info_of (c : tk_call) : info :=
  mkInfo (os_path_basename (call_path c)) (len (call_image c)) (fst (call_from c)).

(** The last of [calls] that can be shown, or [before] when none can. *)
Fixpoint last_shown (pil : Pillow) (calls : list tk_call) (before : option tk_call)
    : option tk_call :=
  match calls with
  | [] => before
  | c :: calls' => last_shown pil calls' (if displayable pil c then Some c else before)
  end.

(** ** Notions the statements below are written with *)

Definition nonempty (c : bytes) : Prop := c <> [].

(** The state a socket is left in by reading: only the pending events and
    the request log change. *)
Definition same_peer (s s' : socket) : Prop :=
  peer_open s' = peer_open s /\ sent s' = sent s /\ closed s' = closed s.

(** A connection on which exactly the bytes of [chunks] arrive, in these
    pieces, followed by [rest]. *)
Definition delivers (s : socket) (chunks : list bytes) (rest : list recv_event) : Prop :=
  Forall nonempty chunks /\ inbound s = map Chunk chunks ++ rest.

(** The handler's two reads go through on [s]: a header arrives in full,
    it declares the size of [d], and [d], not empty, arrives in full. *)
Definition frame_read (s : socket) (d : bytes) : Prop :=
  exists header s1 s2,
    _receive_all 4 s = Ret (Some header) s1
    /\ struct_unpack_I header = inr (len d)
    /\ _receive_all (len d) s1 = Ret (Some d) s2
    /\ nonempty d.

(** Nothing comes after the chunks: the peer has closed, or the
    connection breaks. *)
Definition ends (rest : list recv_event) : Prop :=
  rest = [] \/ exists e rest', rest = RecvFail e :: rest'.

(** The path [_save_and_display_image] writes to in the world [w]. *)
Definition save_path (self : PhotoServer) (w : world) : path :=
  os_path_join (data_dir self) [strftime_HMS (now w) +:+ ".jpg"].

(** The partition is there, the target is not a directory, and the
    payload fits on the disk. *)
Definition storage_ready (self : PhotoServer) (w : world) (image_data : bytes) : Prop :=
  path_isdir (disk w) (data_dir self) = true
  /\ path_isdir (disk w) (save_path self w) = false
  /\ len image_data <= free_space (disk w).

(** The storage step raises. *)
Definition storage_fails (self : PhotoServer) (w : world) (image_data : bytes) (e : exn) : Prop :=
  exists fs', write_image (save_path self w) image_data (disk w) = Raise e fs'.

(** The stream ends inside the header, or inside the payload the header
    declares. *)
Definition truncated (stream : bytes) : Prop :=
  len stream < 4
  \/ exists n, struct_unpack_I (take 4 stream) = inr n /\ len (drop 4 stream) < n.

(** Every entry but the root lies in a directory. *)
Definition well_formed (fs : filesystem) : Prop :=
  forall (p : path) (n : node),
    nodes fs !! p = Some n -> p <> [] -> path_isdir fs (os_path_dirname p) = true.

(** The handler after its [finally]: the connection is closed. *)
Definition hung_up (w : world) : world := set_client (set_closed (client w)) w.

(** The world once the header has been read and its size printed. *)
Definition announced (n : N) (s1 : socket) (w : world) : world :=
  add_line (PrintImageSize n) (set_client s1 w).

(** The world after a payload has been stored and announced. *)
Definition saved (self : PhotoServer) (image_data : bytes) (a : address) (w : world) : world :=
  add_call (mkCall image_data (save_path self w) a)
    (add_line (PrintSaved (save_path self w))
       (set_disk (use_space (len image_data)
                    (put_node (save_path self w) (File image_data)
                       (put_node (save_path self w) (File []) (disk w)))) w)).

(** The last two steps: the acknowledgement, then the [finally]. *)
Definition acknowledge (a : address) (w : world) : world :=
  if peer_open (client w)
  then hung_up (set_client (add_sent OK (client w)) w)
  else hung_up (add_line (PrintClientError a (OSError EPIPE)) w).

(** The spec's round trip for a payload [P]: one file with the contents
    [P] appears and ["OK"] goes back. *)
Definition round_trip (self : PhotoServer) (a : address) (w : world) (P : bytes) : Prop :=
  exists w' filepath,
    _handle_client self a w = Ret tt w'
    /\ nodes (disk w') = <[filepath := File P]> (nodes (disk w))
    /\ sent (client w') = sent (client w) ++ OK.

(** The spec's rule for a failing storage step: nothing is sent. *)
Definition silent_on_storage_failure
    (self : PhotoServer) (a : address) (w : world) (P : bytes) : Prop :=
  forall e w',
    storage_fails self w P e ->
    _handle_client self a w = Ret tt w' ->
    sent (client w') = sent (client w).

(** The spec's layout, with the date taken when the payload is saved. *)
Definition dated_when_saved (self : PhotoServer) (w : world) : Prop :=
  save_path self w
  = os_path_join (script_dir w)
      ["data"; strftime_Ymd (now w); strftime_HMS (now w) +:+ ".jpg"].

(** The main thread has asked the server to stop. *)
Definition stopped (pc : main_pc) : bool :=
  match pc with Stopping | Finished => true | _ => false end.

(** The flag follows the main thread: set while it is in the main loop,
    clear before [run] and from [stop_server] on; and no exception has
    left [_run_server]. *)
Definition in_step (s : system) : Prop :=
  running (self s) = match main_thread s with Mainloop => true | _ => false end
  /\ forall e, server_thread s <> Crashed e.

(** A schedule that stops the server when its thread has found the flag
    set and is about to call [accept]. *)
Definition stop_at_accept : list event :=
  [RunCalled; ServerRuns Nothing; ServerRuns Nothing; StopPressed; StopGoesOn].

(** A schedule that stops the server while its thread waits in [accept]. *)
Definition stop_while_blocked : list event :=
  [RunCalled; ServerRuns Nothing; ServerRuns Nothing; ServerRuns Nothing;
   StopPressed; StopGoesOn].

(** A time of the day as a clock can show it. *)
Definition valid_time (t : datetime) : Prop :=
  (hour t < 24 /\ minute t < 60 /\ second t < 60)%nat.

(** Every entry of [fs] is an entry of [fs'], unchanged. *)
Definition keeps (fs fs' : filesystem) : Prop :=
  forall (q : path) (n : node), nodes fs !! q = Some n -> nodes fs' !! q = Some n.

(** The connections a schedule offers to [accept], in order. *)
Fixpoint connections (evs : list event) : list (socket * address) :=
  match evs with
  | [] => []
  | ServerRuns (Connects c a) :: evs' => (c, a) :: connections evs'
  | _ :: evs' => connections evs'
  end.

(** What the first event that ends a waiting [accept] does to it: the
    first step of the server thread on which the network does something. *)
Fixpoint first_outcome (evs : list event) : option outcome :=
  match evs with
  | [] => None
  | ServerRuns (Connects c a) :: _ => Some (Connects c a)
  | ServerRuns (Fails e) :: _ => Some (Fails e)
  | _ :: evs' => first_outcome evs'
  end.

(** A schedule for the server thread alone, from the loop test on: for
    each arrival [(n, (c, a))] the thread passes the test, calls [accept],
    goes [n] times round waiting, and is given the connection. *)
Definition serve (arrivals : list (nat * (socket * address))) : list event :=
  flat_map (fun '(n, (c, a)) =>
              ServerRuns Nothing :: repeat (ServerRuns Nothing) n
              ++ [ServerRuns (Connects c a)]) arrivals.

(** What a call of [accept] that is not refused does, by what the
    network does to it. *)
Definition accept_outcome (o : outcome) (s s' : system) : Prop :=
  self s' = self s
  /\ match o with
     | Connects c a =>
         server_thread s' = LoopTest
         /\ handlers s' = handlers s ++ [(c, a)]
         /\ console s' = console s ++ [Conectado a]
     | Fails e =>
         server_thread s' = Returned
         /\ handlers s' = handlers s
         /\ console s' = console s ++ [if running (self s) then ErroAceitar else Parado]
     | Nothing => s' = set_server_thread Blocked s
     end.

(** How the two threads and the listening socket hang together: the
    server thread exists from [run] on; it is in the loop only with a
    socket; and once [stop_server] is through, a thread that is about to
    call [accept] finds the socket closed. *)
Definition wired (s : system) : Prop :=
  (main_thread s = BeforeStart <-> server_thread s = NoThread)
  /\ (server_thread s = LoopTest \/ server_thread s = InAccept \/ server_thread s = Blocked ->
      exists l, server_socket (self s) = Some l)
  /\ (main_thread s = Finished -> server_thread s = InAccept ->
      exists l, server_socket (self s) = Some l /\ listener_closed l = true).

(** ** Sample data *)

Definition hello : bytes := ["h"; "e"; "l"; "l"; "o"]%byte.
Definition last_second : datetime := mkDatetime 2024 12 31 23 59 59.
Definition next_day : datetime := mkDatetime 2025 1 1 0 0 1.
Definition phone : address := ("192.168.0.7"%string, 40312).
Definition install_dir : path := ["opt"%string; "server"%string].
Definition partition : path := install_dir ++ ["data"%string; "2024-12-31"%string].

(** A disk with the installation directory and nothing else. *)
Definition bare_disk : filesystem :=
  mkFs (<[install_dir := Dir]> (<[["opt"%string] := Dir]> ∅)) 4096.

(** The same disk once the partition of 2024-12-31 has been made. *)
Definition ready_disk : filesystem :=
  mkFs (<[partition := Dir]>
          (<[install_dir ++ ["data"%string] := Dir]> (nodes bare_disk))) 4096.

Definition sample_server : PhotoServer :=
  mkServer "0.0.0.0" 5001 None false partition.

Definition sample_world (fs : filesystem) (t : datetime) (events : list recv_event) : world :=
  mkWorld (accepted events true) fs t install_dir [] [].

(** A stand-in for Pillow: only what starts with the JPEG marker FF D8 is
    an image. *)
Definition toy_pillow : Pillow :=
  mkPillow bytes bytes
    (fun d => match d with
              | xff :: xd8 :: _ => inr d
              | _ => inl (OSError ENOENT)
              end)
    (fun _ image => image)
    (fun image => inr image).

Definition jpeg : bytes := [xff; xd8; xff; xe0].

(** ** Proof steps that recur *)

(** Case analysis on an innermost [match] of the goal. *)
Ltac break_match :=
  match goal with
  | |- context [match ?x with _ => _ end] =>
      lazymatch x with
      | context [match _ with _ => _ end] => fail
      | _ => destruct x eqn:?
      end
  end.

Ltac unfold_monad :=
  unfold try_finally, try_except_of, try_except, bind, zoom, modify, get, ret, raise in *.

Ltac run_handler :=
  unfold _handle_client, on_client, print, close, lift_exn; unfold_monad.

Ltac run_system :=
  unfold step, commit, _run_server_step, accept_pass, accept, open_listener,
    start_server, stop_server_flag, stop_server_close, say, on_self;
  unfold_monad.

(** ** Facts about [_receive_all] *)

Lemma len_app (a b : bytes) : len (a ++ b) = len a + len b.
Proof. unfold len. rewrite length_app. lia. Qed.

Lemma truthy_bytes_true (c : bytes) : truthy_bytes c = true <-> nonempty c.
Proof. unfold nonempty. destruct c; simpl; split; congruence. Qed.

Lemma take_nonempty (k : N) (c : bytes) :
  0 < k -> nonempty c -> nonempty (take (N.to_nat k) c).
Proof.
  intros Hk Hc. destruct c as [|b c]; [contradiction|].
  destruct (N.to_nat k) eqn:E; [lia|]. simpl. discriminate.
Qed.

Lemma same_peer_refl s : same_peer s s.
Proof. repeat split. Qed.

Lemma same_peer_trans s1 s2 s3 : same_peer s1 s2 -> same_peer s2 s3 -> same_peer s1 s3.
Proof. unfold same_peer. intuition congruence. Qed.

Lemma recv_eof (k : N) (s : socket) :
  inbound s = [] -> recv k s = Ret [] (log_request k s).
Proof. intros H. unfold recv. simpl. now rewrite H. Qed.

Lemma recv_fail (k : N) (s : socket) (e : os_errno) (rest : list recv_event) :
  inbound s = RecvFail e :: rest ->
  recv k s = Raise (OSError e) (set_inbound rest (log_request k s)).
Proof. intros H. unfold recv. simpl. now rewrite H. Qed.

Lemma recv_whole (k : N) (s : socket) (c : bytes) (rest : list recv_event) :
  inbound s = Chunk c :: rest -> len c <= k ->
  recv k s = Ret c (set_inbound rest (log_request k s)).
Proof.
  intros H Hk. unfold recv. simpl. rewrite H.
  apply N.leb_le in Hk. now rewrite Hk.
Qed.

Lemma recv_part (k : N) (s : socket) (c : bytes) (rest : list recv_event) :
  inbound s = Chunk c :: rest -> k < len c ->
  recv k s = Ret (take (N.to_nat k) c)
                 (set_inbound (Chunk (drop (N.to_nat k) c) :: rest) (log_request k s)).
Proof.
  intros H Hk. unfold recv. simpl. rewrite H.
  apply N.leb_gt in Hk. now rewrite Hk.
Qed.

Lemma receive_loop_done (fuel : nat) (size : N) (data : bytes) (s : socket) :
  size <= len data ->
  receive_loop (S fuel) size data s = Ret (Some data) s.
Proof.
  intros H. simpl. apply N.ltb_ge in H. now rewrite H.
Qed.

Lemma receive_loop_chunks (chunks : list bytes) :
  forall (fuel : nat) (size : N) (data : bytes) (s : socket) (rest : list recv_event),
    Forall nonempty chunks ->
    inbound s = map Chunk chunks ++ rest ->
    len data <= size ->
    size - len data <= len (concat chunks) ->
    (length chunks + 2 <= fuel)%nat ->
    exists s' chunks',
      receive_loop fuel size data s
        = Ret (Some (data ++ take (N.to_nat (size - len data)) (concat chunks))) s'
      /\ inbound s' = map Chunk chunks' ++ rest
      /\ Forall nonempty chunks'
      /\ concat chunks' = drop (N.to_nat (size - len data)) (concat chunks)
      /\ same_peer s s'.
Proof.
  induction chunks as [|c cs IH]; intros fuel size data s rest Hne Hin Hle Hrem Hfuel.
  - destruct fuel as [|fuel]; [simpl in Hfuel; lia|].
    simpl in Hrem. change (len []) with 0 in Hrem.
    rewrite receive_loop_done by lia. exists s, [].
    simpl concat. rewrite take_nil, drop_nil, app_nil_r. auto using same_peer_refl.
  - destruct fuel as [|fuel]; [simpl in Hfuel; lia|].
    destruct (N.lt_ge_cases (len data) size) as [Htest|Htest].
    + apply Forall_cons in Hne as [Hc Hcs].
      simpl in Hrem, Hin. rewrite len_app in Hrem.
      simpl receive_loop. apply N.ltb_lt in Htest as Htest'. rewrite Htest'.
      unfold bind at 1.
      destruct (N.le_gt_cases (len c) (size - len data)) as [Hwhole|Hpart].
      * rewrite (recv_whole _ _ _ _ Hin Hwhole).
        apply truthy_bytes_true in Hc as Hc'. rewrite Hc'. cbn [negb].
        destruct (IH fuel size (data ++ c)
                    (set_inbound (map Chunk cs ++ rest) (log_request (size - len data) s))
                    rest Hcs eq_refl)
          as (s' & chunks' & Hrun & Hin' & Hne' & Hcat & Hpeer).
        { rewrite len_app. lia. }
        { rewrite len_app. lia. }
        { simpl in Hfuel. lia. }
        exists s', chunks'. rewrite Hrun.
        assert (N.to_nat (size - len data)
                = (length c + N.to_nat (size - len (data ++ c)))%nat) as Hk.
        { rewrite len_app. unfold len in *. lia. }
        simpl concat.
        rewrite Hk, take_app_add, drop_app_add, <- app_assoc.
        repeat split; auto; apply Hpeer.
      * rewrite (recv_part _ _ _ _ Hin Hpart).
        assert (nonempty (take (N.to_nat (size - len data)) c)) as Hpart'
          by (apply take_nonempty; [lia|assumption]).
        apply truthy_bytes_true in Hpart'. rewrite Hpart'. cbn [negb].
        destruct fuel as [|fuel]; [simpl in Hfuel; lia|].
        assert (N.to_nat (size - len data) <= length c)%nat as Hshort
          by (unfold len in *; lia).
        rewrite receive_loop_done
          by (rewrite len_app; unfold len at 2; rewrite length_take; unfold len in *; lia).
        exists (set_inbound (Chunk (drop (N.to_nat (size - len data)) c) :: map Chunk cs ++ rest)
                  (log_request (size - len data) s)),
               (drop (N.to_nat (size - len data)) c :: cs).
        simpl concat.
        rewrite take_app_le, drop_app_le by exact Hshort.
        repeat split; auto.
        apply Forall_cons; split; [|assumption].
        unfold nonempty. intros Hnil. apply (f_equal length) in Hnil.
        rewrite length_drop in Hnil. simpl in Hnil. unfold len in *. lia.
    + rewrite receive_loop_done by exact Htest.
      assert (size - len data = 0) as Hz by lia.
      rewrite Hz. simpl N.to_nat. rewrite take_0, drop_0, app_nil_r.
      exists s, (c :: cs). auto using same_peer_refl.
Qed.

(** When the peer closes before [size] bytes have come, the loop gives
    [None], whatever it had collected. *)
Lemma receive_loop_eof (chunks : list bytes) :
  forall (fuel : nat) (size : N) (data : bytes) (s : socket),
    Forall nonempty chunks ->
    inbound s = map Chunk chunks ->
    len data + len (concat chunks) < size ->
    (length chunks + 1 <= fuel)%nat ->
    exists s', receive_loop fuel size data s = Ret None s'
               /\ inbound s' = [] /\ same_peer s s'.
Proof.
  induction chunks as [|c cs IH]; intros fuel size data s Hne Hin Hlt Hfuel;
    (destruct fuel as [|fuel]; [simpl in Hfuel; lia|]);
    simpl in Hlt, Hin; simpl receive_loop;
    assert ((len data <? size) = true) as Htest
      by (apply N.ltb_lt; unfold len in *; lia);
    rewrite Htest; unfold bind at 1.
  - rewrite (recv_eof _ _ Hin). cbn [truthy_bytes negb]. unfold ret.
    eexists. split; [reflexivity|]. split; [exact Hin|]. repeat split.
  - apply Forall_cons in Hne as [Hc Hcs]. rewrite len_app in Hlt.
    rewrite (recv_whole _ _ _ _ Hin) by lia.
    apply truthy_bytes_true in Hc as Hc'. rewrite Hc'. cbn [negb].
    destruct (IH fuel size (data ++ c)
                (set_inbound (map Chunk cs) (log_request (size - len data) s)))
      as (s' & Hrun & Hin' & Hpeer); auto.
    { rewrite len_app. lia. }
    { simpl in Hfuel. lia. }
    exists s'. repeat split; auto; apply Hpeer.
Qed.

(** The loop always comes to an end within the fuel [_receive_all] gives it. *)
Lemma receive_loop_total (fuel : nat) :
  forall (size : N) (data : bytes) (s : socket),
    (length (inbound s) + 2 <= fuel)%nat \/ (1 <= fuel)%nat /\ size <= len data ->
    receive_loop fuel size data s <> OutOfFuel.
Proof.
  induction fuel as [|fuel IH]; intros size data s Hfuel; [lia|].
  destruct (N.lt_ge_cases (len data) size) as [Htest|Htest].
  - destruct Hfuel as [Hfuel|[_ Hdone]]; [|lia].
    simpl receive_loop. apply N.ltb_lt in Htest as Htest'. rewrite Htest'.
    unfold bind at 1.
    destruct (inbound s) as [|[c|e] rest] eqn:Hin.
    + rewrite (recv_eof _ _ Hin). discriminate.
    + destruct (N.le_gt_cases (len c) (size - len data)) as [Hwhole|Hpart].
      * rewrite (recv_whole _ _ _ _ Hin Hwhole).
        destruct (truthy_bytes c); cbn [negb]; [|discriminate].
        apply IH. left. simpl in *. lia.
      * rewrite (recv_part _ _ _ _ Hin Hpart).
        destruct (truthy_bytes _); cbn [negb]; [|discriminate].
        apply IH. right. simpl in Hfuel. split; [lia|].
        rewrite len_app. unfold len at 2. rewrite length_take. unfold len in *. lia.
    + rewrite (recv_fail _ _ _ _ Hin). discriminate.
  - rewrite receive_loop_done by exact Htest. discriminate.
Qed.

Lemma receive_all_total (size : N) (s : socket) : _receive_all size s <> OutOfFuel.
Proof. unfold _receive_all. apply receive_loop_total. left. lia. Qed.

(** The [recv] calls of a read are added to the log in order. *)
Lemma receive_loop_requested (fuel : nat) :
  forall (size : N) (data : bytes) (s : socket),
    match receive_loop fuel size data s with
    | Ret _ s' | Raise _ s' =>
        exists more, requested s' = requested s ++ more
                     /\ (len data < size -> exists more', more = (size - len data) :: more')
    | OutOfFuel => True
    end.
Proof.
  induction fuel as [|fuel IH]; intros size data s; [exact I|].
  simpl receive_loop.
  destruct (N.lt_ge_cases (len data) size) as [Htest|Htest].
  - apply N.ltb_lt in Htest as Htest'. rewrite Htest'. unfold bind at 1.
    assert (forall (d' : bytes) (i : list recv_event),
              match receive_loop fuel size d' (set_inbound i (log_request (size - len data) s)) with
              | Ret _ s' | Raise _ s' =>
                  exists more, requested s' = requested s ++ more
                    /\ (len data < size -> exists more', more = (size - len data) :: more')
              | OutOfFuel => True
              end) as Hnext.
    { intros d' i. specialize (IH size d' (set_inbound i (log_request (size - len data) s))).
      destruct (receive_loop fuel size d' _) as [r s'|e s'|]; [| |exact I];
        destruct IH as (more & Hreq & _); simpl in Hreq;
        exists ((size - len data) :: more);
        (split; [rewrite Hreq, <- app_assoc; reflexivity | eauto]). }
    destruct (inbound s) as [|[c|e] rest] eqn:Hin.
    + rewrite (recv_eof _ _ Hin). cbn [truthy_bytes negb]. unfold ret.
      exists [size - len data]. split; [reflexivity|eauto].
    + destruct (N.le_gt_cases (len c) (size - len data)) as [Hwhole|Hpart].
      * rewrite (recv_whole _ _ _ _ Hin Hwhole).
        destruct (truthy_bytes c); cbn [negb]; [apply Hnext|].
        exists [size - len data]. split; [reflexivity|eauto].
      * rewrite (recv_part _ _ _ _ Hin Hpart).
        destruct (truthy_bytes _); cbn [negb]; [apply Hnext|].
        exists [size - len data]. split; [reflexivity|eauto].
    + rewrite (recv_fail _ _ _ _ Hin).
      exists [size - len data]. split; [reflexivity|eauto].
  - apply N.ltb_ge in Htest as Htest'. rewrite Htest'. unfold ret.
    exists []. split; [now rewrite app_nil_r | lia].
Qed.

Lemma receive_all_chunks (n : N) (chunks : list bytes) (rest : list recv_event) (s : socket) :
  delivers s chunks rest ->
  n <= len (concat chunks) ->
  exists s' chunks',
    _receive_all n s = Ret (Some (take (N.to_nat n) (concat chunks))) s'
    /\ delivers s' chunks' rest
    /\ concat chunks' = drop (N.to_nat n) (concat chunks)
    /\ same_peer s s'.
Proof.
  intros [Hne Hin] Hn. unfold _receive_all.
  destruct (receive_loop_chunks chunks (S (S (length (inbound s)))) n [] s rest)
    as (s' & chunks' & Hrun & Hin' & Hne' & Hcat & Hpeer); auto.
  - change (len []) with 0. lia.
  - change (len []) with 0. lia.
  - rewrite Hin, length_app, length_map. lia.
  - change (len []) with 0 in *. rewrite N.sub_0_r in *. simpl in Hrun.
    exists s', chunks'. unfold delivers. auto.
Qed.

Lemma receive_all_closed_early (n : N) (chunks : list bytes) (s : socket) :
  delivers s chunks [] ->
  len (concat chunks) < n ->
  exists s', _receive_all n s = Ret None s' /\ inbound s' = [] /\ same_peer s s'.
Proof.
  intros [Hne Hin] Hn. unfold _receive_all. rewrite app_nil_r in Hin.
  apply (receive_loop_eof chunks); auto.
  rewrite Hin, length_map. lia.
Qed.

Lemma len_take (k : N) (data : bytes) : k <= len data -> len (take (N.to_nat k) data) = k.
Proof. unfold len. rewrite length_take. lia. Qed.

(** C3. For every byte count [n] and every way the stream is cut into
    non-empty chunks that hold at least [n] bytes in all, [_receive_all]
    returns exactly the first [n] bytes of the stream, which depend on
    the stream alone and not on where it was cut. *)
Theorem receive_all_any_fragmentation
    (n : N) (chunks : list bytes) (rest : list recv_event) (s : socket) :
  Forall nonempty chunks ->
  inbound s = map Chunk chunks ++ rest ->
  n <= len (concat chunks) ->
  exists s',
    _receive_all n s = Ret (Some (take (N.to_nat n) (concat chunks))) s'
    /\ len (take (N.to_nat n) (concat chunks)) = n.
Proof.
  intros Hne Hin Hn.
  destruct (receive_all_chunks n chunks rest s) as (s' & _ & Hrun & _); [split|..]; auto.
  exists s'. split; [exact Hrun | now apply len_take].
Qed.

Lemma receive_all_any_fragmentation_witness :
  exists s',
    _receive_all 3 (accepted [Chunk ["h"; "e"]%byte; Chunk ["l"; "l"; "o"]%byte] true)
    = Ret (Some ["h"; "e"; "l"]%byte) s'.
Proof.
  destruct (receive_all_any_fragmentation 3 [["h"; "e"]; ["l"; "l"; "o"]]%byte []
              (accepted [Chunk ["h"; "e"]%byte; Chunk ["l"; "l"; "o"]%byte] true))
    as (s' & Hrun & _).
  - repeat constructor; discriminate.
  - reflexivity.
  - vm_compute. discriminate.
  - exists s'. exact Hrun.
Defined.

(** ** Facts about the header *)

Lemma to_N_byte_of_N (n : N) : Byte.to_N (byte_of_N n) = n mod 256.
Proof.
  unfold byte_of_N. destruct (Byte.of_N (n mod 256)) as [b|] eqn:E.
  - now apply Byte.to_of_N.
  - apply Byte.of_N_None_iff in E.
    pose proof (N.mod_upper_bound n 256). lia.
Qed.

Lemma byte_of_N_to_N (b : byte) : byte_of_N (Byte.to_N b) = b.
Proof.
  unfold byte_of_N. pose proof (Byte.to_N_bounded b).
  rewrite N.mod_small by lia. now rewrite Byte.of_to_N.
Qed.

Lemma struct_unpack_I_bound (b0 b1 b2 b3 : byte) :
  exists n, struct_unpack_I [b0; b1; b2; b3] = inr n /\ n <= 2 ^ 32 - 1.
Proof.
  eexists. split; [reflexivity|].
  pose proof (Byte.to_N_bounded b0). pose proof (Byte.to_N_bounded b1).
  pose proof (Byte.to_N_bounded b2). pose proof (Byte.to_N_bounded b3).
  change (2 ^ 24) with 16777216. change (2 ^ 16) with 65536.
  change (2 ^ 8) with 256. change (2 ^ 32) with 4294967296. lia.
Qed.

Lemma unpack_pack (n : N) : n < 2 ^ 32 -> struct_unpack_I (struct_pack_I n) = inr n.
Proof.
  intros Hn. unfold struct_pack_I, struct_unpack_I. f_equal.
  rewrite !to_N_byte_of_N.
  change (2 ^ 24) with 16777216. change (2 ^ 16) with 65536.
  change (2 ^ 8) with 256. change (2 ^ 32) with 4294967296 in Hn.
  pose proof (N.div_mod n 256 ltac:(lia)).
  pose proof (N.div_mod (n / 256) 256 ltac:(lia)).
  pose proof (N.div_mod (n / 256 / 256) 256 ltac:(lia)).
  rewrite !N.Div0.div_div in *.
  change (256 * 256) with 65536 in *. change (65536 * 256) with 16777216 in *.
  assert (n / 16777216 < 256) by (apply N.Div0.div_lt_upper_bound; lia).
  rewrite (N.mod_small (n / 16777216)) by lia.
  lia.
Qed.

Lemma pack_unpack (b0 b1 b2 b3 : byte) (n : N) :
  struct_unpack_I [b0; b1; b2; b3] = inr n -> struct_pack_I n = [b0; b1; b2; b3].
Proof.
  intros H. injection H as <-.
  pose proof (Byte.to_N_bounded b0). pose proof (Byte.to_N_bounded b1).
  pose proof (Byte.to_N_bounded b2). pose proof (Byte.to_N_bounded b3).
  change (2 ^ 24) with 16777216. change (2 ^ 16) with 65536. change (2 ^ 8) with 256.
  unfold struct_pack_I.
  change (2 ^ 24) with 16777216. change (2 ^ 16) with 65536. change (2 ^ 8) with 256.
  set (t0 := Byte.to_N b0) in *. set (t1 := Byte.to_N b1) in *.
  set (t2 := Byte.to_N b2) in *. set (t3 := Byte.to_N b3) in *.
  set (n := t0 * 16777216 + t1 * 65536 + t2 * 256 + t3).
  assert (n / 16777216 = t0) as E0
    by (symmetry; apply (N.div_unique n 16777216 t0 (t1 * 65536 + t2 * 256 + t3)); lia).
  assert (n / 65536 = t0 * 256 + t1) as E1
    by (symmetry; apply (N.div_unique n 65536 _ (t2 * 256 + t3)); lia).
  assert (n / 256 = t0 * 65536 + t1 * 256 + t2) as E2
    by (symmetry; apply (N.div_unique n 256 _ t3); lia).
  assert (forall a t, t <= 255 -> byte_of_N (a * 256 + t) = byte_of_N t) as Hlow.
  { intros a t Ht. unfold byte_of_N.
    replace ((a * 256 + t) mod 256) with (t mod 256); [reflexivity|].
    rewrite N.add_comm, N.Div0.mod_add. reflexivity. }
  rewrite E0, E1, E2.
  replace (t0 * 65536 + t1 * 256 + t2) with ((t0 * 256 + t1) * 256 + t2) by lia.
  replace n with ((t0 * 65536 + t1 * 256 + t2) * 256 + t3) by lia.
  rewrite !Hlow by assumption.
  unfold t0, t1, t2, t3. now rewrite !byte_of_N_to_N.
Qed.

Lemma struct_pack_I_length (n : N) : len (struct_pack_I n) = 4.
Proof. reflexivity. Qed.

(** ** Facts about the storage step *)

(** What [write_image] does, case by case. *)
Lemma write_image_cases (fp : path) (image_data : bytes) (fs : filesystem) :
  (write_image fp image_data fs
     = Ret tt (use_space (len image_data)
                 (put_node fp (File image_data) (put_node fp (File []) fs)))
   /\ path_isdir fs fp = false
   /\ path_isdir fs (os_path_dirname fp) = true
   /\ len image_data <= free_space fs)
  \/ (exists e fs', write_image fp image_data fs = Raise (OSError e) fs'
                    /\ (path_isdir fs fp = true
                        \/ path_isdir fs (os_path_dirname fp) = false
                        \/ free_space fs < len image_data)).
Proof.
  unfold write_image, open_wb, check_parent, file_write, file_close, path_isdir.
  unfold_monad. simpl.
  destruct (node_at fs fp) as [[|c]|] eqn:Hfp; simpl;
    try (right; eexists _, _; split; [reflexivity|auto]; fail);
    destruct (node_at fs (os_path_dirname fp)) as [[|c']|] eqn:Hparent; simpl;
    try (right; eexists _, _; split; [reflexivity|auto]; fail);
    destruct (N.ltb_spec (free_space fs) (len image_data));
    try (right; eexists _, _; split; [reflexivity|auto]; fail);
    left; auto.
Qed.

Lemma write_image_ready (self : PhotoServer) (w : world) (image_data : bytes) :
  storage_ready self w image_data ->
  write_image (save_path self w) image_data (disk w)
  = Ret tt (use_space (len image_data)
              (put_node (save_path self w) (File image_data)
                 (put_node (save_path self w) (File []) (disk w)))).
Proof.
  intros (Hdir & Hfile & Hspace).
  destruct (write_image_cases (save_path self w) image_data (disk w))
    as [(Hrun & _)|(e & fs' & _ & [H|[H|H]])]; auto.
  - congruence.
  - unfold save_path, os_path_join, os_path_dirname in H.
    rewrite removelast_last in H. congruence.
  - lia.
Qed.

Lemma save_ready (self : PhotoServer) (image_data : bytes) (a : address) (w : world) :
  storage_ready self w image_data ->
  _save_and_display_image self image_data a w = Ret tt (saved self image_data a w).
Proof.
  intros Hready. apply write_image_ready in Hready.
  unfold _save_and_display_image, on_disk, print, root_after. unfold_monad.
  fold (save_path self w). now rewrite Hready.
Qed.

Lemma save_fails (self : PhotoServer) (image_data : bytes) (a : address) (w : world)
    (e : exn) (fs' : filesystem) :
  write_image (save_path self w) image_data (disk w) = Raise e fs' ->
  _save_and_display_image self image_data a w
  = Ret tt (add_line (PrintSaveError e) (set_disk fs' w)).
Proof.
  intros Hfail.
  unfold _save_and_display_image, on_disk, print, root_after. unfold_monad.
  fold (save_path self w). now rewrite Hfail.
Qed.

(** The storage step never lets an exception out and leaves the
    connection alone. *)
Lemma save_returns (self : PhotoServer) (image_data : bytes) (a : address) (w : world) :
  exists w', _save_and_display_image self image_data a w = Ret tt w'
             /\ client w' = client w.
Proof.
  destruct (write_image_cases (save_path self w) image_data (disk w))
    as [(Hrun & _)|(e & fs' & Hrun & _)].
  - unfold _save_and_display_image, on_disk, print, root_after. unfold_monad.
    fold (save_path self w). rewrite Hrun. eexists. split; reflexivity.
  - rewrite (save_fails _ _ _ _ _ _ Hrun). eexists. split; reflexivity.
Qed.

(** ** The paths through [_handle_client] *)

Lemma handle_no_header (self : PhotoServer) (a : address) (w : world)
    (v : option bytes) (s1 : socket) :
  _receive_all 4 (client w) = Ret v s1 ->
  truthy v = false ->
  _handle_client self a w = Ret tt (hung_up (set_client s1 w)).
Proof.
  intros Hread Hv. run_handler. rewrite Hread.
  destruct v as [[|b h]|]; [reflexivity|discriminate|reflexivity].
Qed.

Lemma handle_raise_in_header (self : PhotoServer) (a : address) (w : world)
    (e : exn) (s1 : socket) :
  _receive_all 4 (client w) = Raise e s1 ->
  _handle_client self a w
  = Ret tt (hung_up (add_line (PrintClientError a e) (set_client s1 w))).
Proof. intros Hread. run_handler. now rewrite Hread. Qed.

Lemma handle_no_payload (self : PhotoServer) (a : address) (w : world)
    (h : bytes) (n : N) (s1 s2 : socket) (v : option bytes) :
  _receive_all 4 (client w) = Ret (Some h) s1 ->
  struct_unpack_I h = inr n ->
  _receive_all n s1 = Ret v s2 ->
  truthy v = false ->
  _handle_client self a w = Ret tt (hung_up (set_client s2 (announced n s1 w))).
Proof.
  intros Hhead Hsize Hread Hv. run_handler. rewrite Hhead.
  destruct h as [|b h]; [discriminate|]. rewrite Hsize. simpl. rewrite Hread.
  destruct v as [[|b' d]|]; [reflexivity|discriminate|reflexivity].
Qed.

Lemma handle_raise_in_payload (self : PhotoServer) (a : address) (w : world)
    (h : bytes) (n : N) (s1 s2 : socket) (e : exn) :
  _receive_all 4 (client w) = Ret (Some h) s1 ->
  struct_unpack_I h = inr n ->
  _receive_all n s1 = Raise e s2 ->
  _handle_client self a w
  = Ret tt (hung_up (add_line (PrintClientError a e) (set_client s2 (announced n s1 w)))).
Proof.
  intros Hhead Hsize Hread. run_handler. rewrite Hhead.
  destruct h as [|b h]; [discriminate|]. rewrite Hsize. simpl. now rewrite Hread.
Qed.

Lemma handle_payload (self : PhotoServer) (a : address) (w w3 : world)
    (h image_data : bytes) (n : N) (s1 s2 : socket) :
  _receive_all 4 (client w) = Ret (Some h) s1 ->
  struct_unpack_I h = inr n ->
  _receive_all n s1 = Ret (Some image_data) s2 ->
  nonempty image_data ->
  _save_and_display_image self image_data a (set_client s2 (announced n s1 w)) = Ret tt w3 ->
  _handle_client self a w = Ret tt (acknowledge a w3).
Proof.
  intros Hhead Hsize Hread Hne Hsave. run_handler. rewrite Hhead.
  destruct h as [|b h]; [discriminate|]. rewrite Hsize. simpl. rewrite Hread.
  destruct image_data as [|b' d]; [now elim Hne|].
  unfold announced in Hsave. rewrite Hsave.
  unfold acknowledge, send. destruct (peer_open (client w3)); reflexivity.
Qed.

Lemma handle_raise_in_unpack (self : PhotoServer) (a : address) (w : world)
    (h : bytes) (s1 : socket) (e : exn) :
  _receive_all 4 (client w) = Ret (Some h) s1 ->
  nonempty h ->
  struct_unpack_I h = inl e ->
  _handle_client self a w
  = Ret tt (hung_up (add_line (PrintClientError a e) (set_client s1 w))).
Proof.
  intros Hhead Hne Hsize. run_handler. rewrite Hhead.
  destruct h as [|b h]; [now elim Hne|]. now rewrite Hsize.
Qed.

Lemma not_truthy (v : option bytes) :
  truthy v = true -> exists d, v = Some d /\ nonempty d.
Proof.
  destruct v as [[|b d]|]; try discriminate.
  intros _. exists (b :: d). split; [reflexivity|discriminate].
Qed.

Lemma acknowledge_closed (a : address) (w : world) : closed (client (acknowledge a w)) = true.
Proof. unfold acknowledge. now destruct (peer_open (client w)). Qed.

(** C7. Whatever arrives on the connection, whatever the state of the
    disk and of the peer, the handler returns (no exception leaves it)
    and the client socket is closed when it does. *)
Theorem handle_client_always_closes (self : PhotoServer) (a : address) (w : world) :
  exists w', _handle_client self a w = Ret tt w' /\ closed (client w') = true.
Proof.
  destruct (_receive_all 4 (client w)) as [v s1|e s1|] eqn:Hhead.
  - destruct (truthy v) eqn:Hv.
    + apply not_truthy in Hv as (h & -> & Hh).
      destruct (struct_unpack_I h) as [e|n] eqn:Hsize.
      { rewrite (handle_raise_in_unpack _ _ _ _ _ _ Hhead Hh Hsize). eauto. }
      destruct (_receive_all n s1) as [v2 s2|e s2|] eqn:Hread.
      * destruct (truthy v2) eqn:Hv2.
        -- apply not_truthy in Hv2 as (d & -> & Hd).
           destruct (save_returns self d a (set_client s2 (announced n s1 w)))
             as (w3 & Hsave & _).
           rewrite (handle_payload _ _ _ _ _ _ _ _ _ Hhead Hsize Hread Hd Hsave).
           eauto using acknowledge_closed.
        -- rewrite (handle_no_payload _ _ _ _ _ _ _ _ Hhead Hsize Hread Hv2). eauto.
      * rewrite (handle_raise_in_payload _ _ _ _ _ _ _ _ Hhead Hsize Hread). eauto.
      * now apply receive_all_total in Hread.
    + rewrite (handle_no_header _ _ _ _ _ Hhead Hv). eauto.
  - rewrite (handle_raise_in_header _ _ _ _ _ Hhead). eauto.
  - now apply receive_all_total in Hhead.
Qed.

Lemma unpack_length (d : bytes) (n : N) : struct_unpack_I d = inr n -> len d = 4.
Proof.
  destruct d as [|b0 [|b1 [|b2 [|b3 [|b4 d]]]]]; try discriminate. reflexivity.
Qed.

Lemma take_4_length (stream : bytes) (n : N) :
  struct_unpack_I (take 4 stream) = inr n -> 4 <= len stream.
Proof.
  intros H. apply unpack_length in H. unfold len in *.
  rewrite length_take in H. lia.
Qed.

(** C4. When the peer closes before [n] bytes have come, [_receive_all]
    returns [None] and no part of the data; and when this happens to the
    header or to the payload of a connection, the handler returns with
    the disk as it was, nothing sent, nothing shown, and the socket closed. *)
Theorem closed_early_aborts :
  (forall (n : N) (chunks : list bytes) (s : socket),
      delivers s chunks [] -> len (concat chunks) < n ->
      exists s', _receive_all n s = Ret None s' /\ same_peer s s')
  /\ (forall (self : PhotoServer) (a : address) (w : world) (chunks : list bytes),
         delivers (client w) chunks [] -> truncated (concat chunks) ->
         exists w', _handle_client self a w = Ret tt w'
                    /\ disk w' = disk w
                    /\ sent (client w') = sent (client w)
                    /\ tk_queue w' = tk_queue w
                    /\ closed (client w') = true).
Proof.
  split.
  - intros n chunks s Hin Hn.
    destruct (receive_all_closed_early n chunks s Hin Hn) as (s' & Hrun & _ & Hpeer).
    eauto.
  - intros self a w chunks Hin [Hshort|(n & Hsize & Hcut)].
    + destruct (receive_all_closed_early 4 chunks _ Hin Hshort) as (s1 & Hhead & _ & Hpeer).
      rewrite (handle_no_header _ _ _ _ _ Hhead eq_refl).
      eexists. split; [reflexivity|]. repeat split. apply Hpeer.
    + apply take_4_length in Hsize as Hlong.
      destruct (receive_all_chunks 4 chunks [] _ Hin Hlong)
        as (s1 & chunks1 & Hhead & Hin1 & Hcat & Hpeer1).
      change (N.to_nat 4) with 4%nat in *. rewrite <- Hcat in Hcut.
      destruct (receive_all_closed_early n chunks1 s1 Hin1 Hcut) as (s2 & Hread & _ & Hpeer2).
      rewrite (handle_no_payload _ _ _ _ _ _ _ _ Hhead Hsize Hread eq_refl).
      eexists. split; [reflexivity|]. repeat split.
      apply (same_peer_trans _ _ _ Hpeer1 Hpeer2).
Qed.

Lemma closed_early_aborts_witness :
  exists w',
    _handle_client sample_server phone
      (sample_world ready_disk next_day
         [Chunk ([x00; x00; x00; x0a] ++ ["h"; "e"; "l"]%byte)]) = Ret tt w'
    /\ disk w' = ready_disk /\ sent (client w') = [].
Proof.
  destruct closed_early_aborts as [_ Haborts].
  destruct (Haborts sample_server phone
              (sample_world ready_disk next_day
                 [Chunk ([x00; x00; x00; x0a] ++ ["h"; "e"; "l"]%byte)])
              [[x00; x00; x00; x0a] ++ ["h"; "e"; "l"]%byte])
    as (w' & Hrun & Hdisk & Hsent & _).
  - split; [repeat constructor; discriminate | reflexivity].
  - right. exists 10. split; [reflexivity | vm_compute; reflexivity].
  - exists w'. auto.
Defined.

Lemma handle_zero_size (self : PhotoServer) (a : address) (w : world)
    (chunks : list bytes) (rest : list recv_event) :
  delivers (client w) chunks rest ->
  take 4 (concat chunks) = struct_pack_I 0 ->
  exists w', _handle_client self a w = Ret tt w'
             /\ disk w' = disk w
             /\ sent (client w') = sent (client w)
             /\ tk_queue w' = tk_queue w
             /\ closed (client w') = true.
Proof.
  intros Hin Hzero.
  assert (struct_unpack_I (take 4 (concat chunks)) = inr 0) as Hsize
    by (rewrite Hzero; reflexivity).
  apply take_4_length in Hsize as Hlong.
  destruct (receive_all_chunks 4 chunks rest _ Hin Hlong)
    as (s1 & chunks1 & Hhead & _ & _ & Hpeer).
  change (N.to_nat 4) with 4%nat in *.
  rewrite (handle_no_payload _ _ _ _ _ s1 s1 (Some []) Hhead Hsize eq_refl eq_refl).
  eexists. split; [reflexivity|]. repeat split. apply Hpeer.
Qed.

(** C5. A declared size of 0 makes [_receive_all] return [b''] at once,
    and the handler takes that for a failed read: it returns with the
    disk as it was, nothing sent, nothing shown, and the socket closed. *)
Theorem empty_payload_dropped :
  (forall s : socket, _receive_all 0 s = Ret (Some []) s)
  /\ (forall (self : PhotoServer) (a : address) (w : world)
             (chunks : list bytes) (rest : list recv_event),
         delivers (client w) chunks rest ->
         take 4 (concat chunks) = struct_pack_I 0 ->
         exists w', _handle_client self a w = Ret tt w'
                    /\ disk w' = disk w
                    /\ sent (client w') = sent (client w)
                    /\ tk_queue w' = tk_queue w
                    /\ closed (client w') = true).
Proof.
  split; [reflexivity|]. intros self a w chunks rest. apply handle_zero_size.
Qed.

Lemma empty_payload_dropped_witness :
  exists w',
    _handle_client sample_server phone
      (sample_world ready_disk next_day [Chunk (struct_pack_I 0)]) = Ret tt w'
    /\ disk w' = ready_disk /\ sent (client w') = [].
Proof.
  destruct empty_payload_dropped as [_ Hdropped].
  destruct (Hdropped sample_server phone
              (sample_world ready_disk next_day [Chunk (struct_pack_I 0)])
              [struct_pack_I 0] [])
    as (w' & Hrun & Hdisk & Hsent & _).
  - split; [repeat constructor; discriminate | reflexivity].
  - reflexivity.
  - exists w'. auto.
Defined.

(** ** Complete transfers *)

Lemma transfer_arrives (w : world) (P : bytes) (chunks : list bytes) (rest : list recv_event) :
  len P < 2 ^ 32 ->
  delivers (client w) chunks rest ->
  concat chunks = struct_pack_I (len P) ++ P ->
  exists s1 s2,
    _receive_all 4 (client w) = Ret (Some (struct_pack_I (len P))) s1
    /\ struct_unpack_I (struct_pack_I (len P)) = inr (len P)
    /\ _receive_all (len P) s1 = Ret (Some P) s2
    /\ same_peer (client w) s2.
Proof.
  intros Hsize Hin Hcat.
  destruct (receive_all_chunks 4 chunks rest _ Hin)
    as (s1 & chunks1 & Hhead & Hin1 & Hcat1 & Hpeer1).
  { rewrite Hcat, len_app, struct_pack_I_length. lia. }
  rewrite Hcat in Hhead, Hcat1. change (N.to_nat 4) with 4%nat in *.
  change (take 4 (struct_pack_I (len P) ++ P)) with (struct_pack_I (len P)) in Hhead.
  change (drop 4 (struct_pack_I (len P) ++ P)) with P in Hcat1.
  destruct (receive_all_chunks (len P) chunks1 rest s1 Hin1)
    as (s2 & chunks2 & Hread & _ & _ & Hpeer2).
  { rewrite Hcat1. lia. }
  rewrite Hcat1 in Hread. unfold len in Hread at 2.
  rewrite Nat2N.id, firstn_all in Hread.
  exists s1, s2. repeat split; auto using unpack_pack; apply (same_peer_trans _ _ _ Hpeer1 Hpeer2).
Qed.

Lemma ready_after_reads (self : PhotoServer) (w : world) (P : bytes) (n : N) (s1 s2 : socket) :
  storage_ready self w P -> storage_ready self (set_client s2 (announced n s1 w)) P.
Proof. intros H. exact H. Qed.

(** C1, as the code has it. For every non-empty payload [P] shorter than
    2^32 bytes, however the header and [P] are cut into chunks: when the
    partition is there, the payload fits and the peer is still listening,
    the handler writes [P] to exactly one path, the others staying as
    they were, sends ["OK"] and closes the socket. *)
Theorem transfer_stored_and_acknowledged
    (self : PhotoServer) (a : address) (w : world) (P : bytes)
    (chunks : list bytes) (rest : list recv_event) :
  nonempty P ->
  len P < 2 ^ 32 ->
  delivers (client w) chunks rest ->
  concat chunks = struct_pack_I (len P) ++ P ->
  storage_ready self w P ->
  peer_open (client w) = true ->
  exists w',
    _handle_client self a w = Ret tt w'
    /\ nodes (disk w') = <[save_path self w := File P]> (nodes (disk w))
    /\ sent (client w') = sent (client w) ++ OK
    /\ tk_queue w' = tk_queue w ++ [mkCall P (save_path self w) a]
    /\ closed (client w') = true.
Proof.
  intros Hne Hsize Hin Hcat Hready Hpeer.
  destruct (transfer_arrives w P chunks rest Hsize Hin Hcat)
    as (s1 & s2 & Hhead & Hn & Hread & Hsame).
  pose proof (save_ready self P a _ (ready_after_reads self w P (len P) s1 s2 Hready)) as Hsave.
  rewrite (handle_payload _ _ _ _ _ _ _ _ _ Hhead Hn Hread Hne Hsave).
  destruct Hsame as (Hopen & Hsent & _).
  unfold acknowledge. simpl. rewrite Hopen, Hpeer.
  eexists. split; [reflexivity|]. simpl. rewrite Hsent.
  repeat split. apply insert_insert_eq.
Qed.

Lemma transfer_stored_and_acknowledged_witness :
  exists w',
    _handle_client sample_server phone
      (sample_world ready_disk next_day
         [Chunk (take 2 (struct_pack_I 5)); Chunk (drop 2 (struct_pack_I 5) ++ take 1 hello);
          Chunk (drop 1 hello)]) = Ret tt w'
    /\ nodes (disk w') = <[partition ++ ["000001.jpg"%string] := File hello]> (nodes ready_disk)
    /\ sent (client w') = OK.
Proof.
  destruct (transfer_stored_and_acknowledged sample_server phone
              (sample_world ready_disk next_day
                 [Chunk (take 2 (struct_pack_I 5));
                  Chunk (drop 2 (struct_pack_I 5) ++ take 1 hello);
                  Chunk (drop 1 hello)])
              hello
              [take 2 (struct_pack_I 5); drop 2 (struct_pack_I 5) ++ take 1 hello; drop 1 hello]
              [])
    as (w' & Hrun & Hdisk & Hsent & _).
  - discriminate.
  - vm_compute. reflexivity.
  - split; [repeat constructor; discriminate | reflexivity].
  - reflexivity.
  - repeat split; vm_compute; first [reflexivity | discriminate].
  - reflexivity.
  - exists w'. auto.
Defined.

(** C1 as the spec words it fails for the empty payload: the header
    [00 00 00 00] arrives in full, nothing has to follow it, and no file
    appears and no ["OK"] goes back. *)
Lemma round_trip_fails_for_empty_payload :
  ~ round_trip sample_server phone
      (sample_world ready_disk next_day [Chunk (struct_pack_I (len []) ++ [])]) [].
Proof.
  intros (w' & filepath & Hrun & _ & Hsent).
  destruct (handle_zero_size sample_server phone
              (sample_world ready_disk next_day [Chunk (struct_pack_I (len []) ++ [])])
              [struct_pack_I 0] [])
    as (w2 & Hrun2 & _ & Hsent2 & _).
  - split; [repeat constructor; discriminate | reflexivity].
  - reflexivity.
  - rewrite Hrun in Hrun2. injection Hrun2 as <-.
    rewrite Hsent2 in Hsent. discriminate.
Qed.

(** ** Transfers whose storage step fails *)

Lemma handle_storage_failure
    (self : PhotoServer) (a : address) (w : world) (P : bytes)
    (chunks : list bytes) (rest : list recv_event) (e : exn) :
  nonempty P ->
  len P < 2 ^ 32 ->
  delivers (client w) chunks rest ->
  concat chunks = struct_pack_I (len P) ++ P ->
  storage_fails self w P e ->
  peer_open (client w) = true ->
  exists w',
    _handle_client self a w = Ret tt w'
    /\ sent (client w') = sent (client w) ++ OK
    /\ tk_queue w' = tk_queue w
    /\ stdout w' = stdout w ++ [PrintImageSize (len P); PrintSaveError e]
    /\ closed (client w') = true.
Proof.
  intros Hne Hsize Hin Hcat [fs' Hfail] Hpeer.
  destruct (transfer_arrives w P chunks rest Hsize Hin Hcat)
    as (s1 & s2 & Hhead & Hn & Hread & Hsame).
  pose proof (save_fails self P a (set_client s2 (announced (len P) s1 w)) e fs' Hfail) as Hsave.
  rewrite (handle_payload _ _ _ _ _ _ _ _ _ Hhead Hn Hread Hne Hsave).
  destruct Hsame as (Hopen & Hsent & _).
  unfold acknowledge. simpl. rewrite Hopen, Hpeer.
  eexists. split; [reflexivity|]. simpl. rewrite Hsent, <- app_assoc.
  repeat split.
Qed.

(** C2, as the code has it. When the storage step raises on a payload
    that has arrived in full, [_save_and_display_image] catches the error
    and prints it, nothing is handed to the GUI, and the handler goes on:
    it sends ["OK"] and closes the socket. *)
Theorem storage_failure_still_acknowledged
    (self : PhotoServer) (a : address) (w : world) (P : bytes)
    (chunks : list bytes) (rest : list recv_event) (e : exn) :
  nonempty P ->
  len P < 2 ^ 32 ->
  delivers (client w) chunks rest ->
  concat chunks = struct_pack_I (len P) ++ P ->
  storage_fails self w P e ->
  peer_open (client w) = true ->
  exists w',
    _handle_client self a w = Ret tt w'
    /\ sent (client w') = sent (client w) ++ OK
    /\ tk_queue w' = tk_queue w
    /\ stdout w' = stdout w ++ [PrintImageSize (len P); PrintSaveError e]
    /\ closed (client w') = true.
Proof. apply handle_storage_failure. Qed.

Lemma sample_storage_fails :
  storage_fails sample_server
    (sample_world bare_disk next_day [Chunk (struct_pack_I 5 ++ hello)]) hello (OSError ENOENT).
Proof. eexists. vm_compute. reflexivity. Qed.

Lemma storage_failure_still_acknowledged_witness :
  exists w',
    _handle_client sample_server phone
      (sample_world bare_disk next_day [Chunk (struct_pack_I 5 ++ hello)]) = Ret tt w'
    /\ sent (client w') = OK
    /\ stdout w' = [PrintImageSize 5; PrintSaveError (OSError ENOENT)].
Proof.
  destruct (storage_failure_still_acknowledged sample_server phone
              (sample_world bare_disk next_day [Chunk (struct_pack_I 5 ++ hello)])
              hello [struct_pack_I 5 ++ hello] [] (OSError ENOENT))
    as (w' & Hrun & Hsent & _ & Hout & _).
  - discriminate.
  - vm_compute. reflexivity.
  - split; [repeat constructor; discriminate | reflexivity].
  - reflexivity.
  - eexists. vm_compute. reflexivity.
  - reflexivity.
  - exists w'. auto.
Defined.

(** C2 as the spec words it fails: the partition is missing, [open]
    raises, and ["OK"] is sent all the same. *)
Lemma ack_sent_despite_storage_failure :
  ~ silent_on_storage_failure sample_server phone
      (sample_world bare_disk next_day [Chunk (struct_pack_I 5 ++ hello)]) hello.
Proof.
  intros Hsilent.
  destruct (handle_storage_failure sample_server phone
              (sample_world bare_disk next_day [Chunk (struct_pack_I 5 ++ hello)])
              hello [struct_pack_I 5 ++ hello] [] (OSError ENOENT))
    as (w' & Hrun & Hsent & _); try reflexivity.
  - discriminate.
  - split; [repeat constructor; discriminate | reflexivity].
  - exact sample_storage_fails.
  - specialize (Hsilent (OSError ENOENT) w' sample_storage_fails Hrun).
    rewrite Hsilent in Hsent. discriminate.
Qed.

(** ** Where payloads are stored *)

Lemma string_length_app (s1 s2 : string) :
  String.length (s1 +:+ s2) = (String.length s1 + String.length s2)%nat.
Proof. induction s1 as [|c s1 IH]; simpl; [reflexivity | now rewrite IH]. Qed.

Lemma zero_padded_length (width n : nat) : String.length (zero_padded width n) = width.
Proof.
  revert n. induction width as [|width IH]; intros n; simpl; [reflexivity|].
  rewrite string_length_app, IH. simpl. lia.
Qed.

Lemma strftime_Ymd_length (t : datetime) : String.length (strftime_Ymd t) = 10%nat.
Proof.
  unfold strftime_Ymd. rewrite !string_length_app, !zero_padded_length. reflexivity.
Qed.

Lemma strftime_HMS_length (t : datetime) : String.length (strftime_HMS t) = 6%nat.
Proof.
  unfold strftime_HMS. rewrite !string_length_app, !zero_padded_length. reflexivity.
Qed.

(** The partition is fixed when the server object is built. *)
Lemma init_data_dir (h : string) (p : N) (w0 w0' : world) (self : PhotoServer) :
  __init__ h p w0 = Ret self w0' ->
  data_dir self = os_path_join (script_dir w0) ["data"%string; strftime_Ymd (now w0)].
Proof.
  unfold __init__, create_data_directory, on_disk. unfold_monad.
  destruct (os_makedirs _ _ _); try discriminate.
  intros H. injection H as <- _. reflexivity.
Qed.

Lemma save_under_data_dir (self : PhotoServer) (image_data : bytes) (a : address) (w : world) :
  storage_ready self w image_data ->
  exists w',
    _save_and_display_image self image_data a w = Ret tt w'
    /\ nodes (disk w') = <[save_path self w := File image_data]> (nodes (disk w))
    /\ tk_queue w' = tk_queue w ++ [mkCall image_data (save_path self w) a].
Proof.
  intros Hready. rewrite (save_ready _ _ _ _ Hready).
  eexists. split; [reflexivity|]. simpl. split; [apply insert_insert_eq | reflexivity].
Qed.

(** C6, as the code has it. A payload that is stored goes to
    base / data / YYYY-MM-DD / HHMMSS.jpg, where the date is the one the
    clock showed when the server object was built and the time of day the
    one it shows when the payload is saved. *)
Theorem saved_under_start_date
    (h : string) (p : N) (w0 w0' : world) (self : PhotoServer)
    (image_data : bytes) (a : address) (w : world) :
  __init__ h p w0 = Ret self w0' ->
  storage_ready self w image_data ->
  exists w',
    _save_and_display_image self image_data a w = Ret tt w'
    /\ nodes (disk w')
       = <[os_path_join (script_dir w0)
             ["data"%string; strftime_Ymd (now w0); strftime_HMS (now w) +:+ ".jpg"]
           := File image_data]> (nodes (disk w))
    /\ String.length (strftime_Ymd (now w0)) = 10%nat
    /\ String.length (strftime_HMS (now w)) = 6%nat.
Proof.
  intros Hinit Hready. apply init_data_dir in Hinit.
  destruct (save_under_data_dir self image_data a w Hready) as (w' & Hrun & Hdisk & _).
  exists w'. split; [exact Hrun|]. split.
  - rewrite Hdisk. unfold save_path, os_path_join. rewrite Hinit.
    unfold os_path_join. rewrite <- app_assoc. reflexivity.
  - split; [apply strftime_Ymd_length | apply strftime_HMS_length].
Qed.

Lemma sample_init :
  __init__ "0.0.0.0" 5001 (sample_world bare_disk last_second [])
  = Ret sample_server (sample_world ready_disk last_second []).
Proof. vm_compute. reflexivity. Qed.

Lemma saved_under_start_date_witness :
  exists w',
    _save_and_display_image sample_server hello phone (sample_world ready_disk next_day []) = Ret tt w'
    /\ nodes (disk w')
       = <[install_dir ++ ["data"%string; "2024-12-31"%string; "000001.jpg"%string] := File hello]>
           (nodes ready_disk).
Proof.
  destruct (saved_under_start_date "0.0.0.0" 5001
              (sample_world bare_disk last_second []) (sample_world ready_disk last_second [])
              sample_server hello phone (sample_world ready_disk next_day []))
    as (w' & Hrun & Hdisk & _).
  - vm_compute. reflexivity.
  - repeat split; vm_compute; first [reflexivity | discriminate].
  - exists w'. split; [exact Hrun | exact Hdisk].
Defined.

(** C6 as the spec words it fails: a server built in the last second of
    2024-12-31 stores what it receives a second after midnight under
    2024-12-31, not under the day of the save. *)
Lemma saved_under_yesterday :
  __init__ "0.0.0.0" 5001 (sample_world bare_disk last_second [])
  = Ret sample_server (sample_world ready_disk last_second [])
  /\ ~ dated_when_saved sample_server (sample_world ready_disk next_day [])
  /\ save_path sample_server (sample_world ready_disk next_day [])
     = install_dir ++ ["data"%string; "2024-12-31"%string; "000001.jpg"%string]
  /\ strftime_Ymd next_day = "2025-01-01"%string.
Proof.
  split; [exact sample_init|]. split; [|split; reflexivity].
  unfold dated_when_saved. vm_compute. discriminate.
Qed.

(** ** Making a partition that is already there *)

Lemma mkdir_exist_ok_present (p : path) (fs : filesystem) :
  path_isdir fs p = true -> mkdir_exist_ok p true fs = Ret tt fs.
Proof.
  intros Hdir. unfold mkdir_exist_ok, os_mkdir. unfold_monad.
  assert (path_exists fs p = true) as Hex.
  { unfold path_exists, path_isdir in *. now destruct (node_at fs p). }
  rewrite Hex. simpl. now rewrite Hdir.
Qed.

Lemma isdir_parent_exists (fs : filesystem) (p : path) (x : string) :
  well_formed fs -> path_isdir fs (p ++ [x]) = true -> path_exists fs p = true.
Proof.
  intros Hwf Hdir.
  assert (path_isdir fs (os_path_dirname (p ++ [x])) = true) as Hparent.
  { unfold path_isdir, node_at in Hdir.
    destruct (p ++ [x]) as [|y q] eqn:Hp; [now destruct p|].
    destruct (nodes fs !! (y :: q)) as [n|] eqn:Hn; [|discriminate].
    rewrite <- Hp in *. apply (Hwf _ n Hn). now destruct p. }
  unfold os_path_dirname in Hparent. rewrite removelast_last in Hparent.
  unfold path_exists, path_isdir in *. now destruct (node_at fs p).
Qed.

Lemma makedirs_present (p : path) (fs : filesystem) :
  well_formed fs ->
  path_isdir fs p = true ->
  os_makedirs p true fs = Ret tt fs.
Proof.
  intros Hwf Hdir. unfold os_makedirs.
  destruct (rev p) as [|tail rhead] eqn:Hrev.
  - apply (f_equal (@rev string)) in Hrev. rewrite rev_involutive in Hrev. subst p.
    now apply mkdir_exist_ok_present.
  - apply (f_equal (@rev string)) in Hrev. rewrite rev_involutive in Hrev.
    simpl in Hrev. subst p.
    simpl makedirs_rev. unfold_monad.
    rewrite (isdir_parent_exists fs (rev rhead) tail Hwf Hdir). simpl.
    now apply mkdir_exist_ok_present.
Qed.

(** C9. When the partition of the day is already a directory of a
    well-formed file system, [create_data_directory] does not raise and
    leaves the whole world, so every file of the directory, as it was. *)
Theorem create_data_directory_idempotent (self : PhotoServer) (w : world) :
  well_formed (disk w) ->
  path_isdir (disk w) (os_path_join (script_dir w) ["data"%string; strftime_Ymd (now w)]) = true ->
  create_data_directory self w
  = Ret (set_data_dir (os_path_join (script_dir w) ["data"%string; strftime_Ymd (now w)]) self) w.
Proof.
  intros Hwf Hdir. unfold create_data_directory, on_disk. unfold_monad.
  simpl data_dir. rewrite (makedirs_present _ _ Hwf Hdir).
  now destruct w.
Qed.

(** A disk of the partition with a photo in it. *)
Lemma used_disk_well_formed :
  well_formed (put_node (partition ++ ["235959.jpg"%string]) (File hello) ready_disk).
Proof.
  intros p n Hp Hroot. simpl in Hp.
  repeat (apply lookup_insert_Some in Hp as [[<- _]|[_ Hp]]; [vm_compute; reflexivity|]).
  now rewrite lookup_empty in Hp.
Qed.

Lemma create_data_directory_idempotent_witness :
  create_data_directory sample_server
    (sample_world (put_node (partition ++ ["235959.jpg"%string]) (File hello) ready_disk)
       last_second [])
  = Ret sample_server
      (sample_world (put_node (partition ++ ["235959.jpg"%string]) (File hello) ready_disk)
         last_second []).
Proof.
  apply (create_data_directory_idempotent sample_server
           (sample_world (put_node (partition ++ ["235959.jpg"%string]) (File hello) ready_disk)
              last_second [])).
  - exact used_disk_well_formed.
  - vm_compute. reflexivity.
Defined.

(** ** The declared size *)

Lemma receive_all_requested (n : N) (s : socket) :
  n <> 0 ->
  match _receive_all n s with
  | Ret _ s' | Raise _ s' => exists more, requested s' = requested s ++ n :: more
  | OutOfFuel => False
  end.
Proof.
  intros Hn. pose proof (receive_all_total n s) as Htotal.
  unfold _receive_all in *.
  pose proof (receive_loop_requested (S (S (length (inbound s)))) n [] s) as Hreq.
  destruct (receive_loop _ n [] s) as [v s'|e s'|]; [| |congruence];
    destruct Hreq as (more & Hreq & Hfirst);
    (destruct Hfirst as (more' & ->); [change (len []) with 0; lia|]);
    change (len []) with 0 in Hreq; rewrite N.sub_0_r in Hreq; eauto.
Qed.

Lemma acknowledge_requested (a : address) (w : world) :
  requested (client (acknowledge a w)) = requested (client w).
Proof. unfold acknowledge. now destruct (peer_open (client w)). Qed.

(** C10. Whatever the four bytes of the header and however they arrive,
    they decode as the big-endian number they spell, which is at most
    2^32 - 1, and the first [recv] after the header asks for exactly that
    many bytes: no declared size is turned down. (A size of 0 needs no
    [recv].) *)
Theorem declared_size_unbounded
    (b0 b1 b2 b3 : byte) (chunks : list bytes) (rest : list recv_event)
    (self : PhotoServer) (a : address) (w : world) :
  delivers (client w) chunks rest ->
  take 4 (concat chunks) = [b0; b1; b2; b3] ->
  exists n,
    struct_unpack_I [b0; b1; b2; b3] = inr n
    /\ n = Byte.to_N b0 * 2 ^ 24 + Byte.to_N b1 * 2 ^ 16 + Byte.to_N b2 * 2 ^ 8 + Byte.to_N b3
    /\ n <= 2 ^ 32 - 1
    /\ struct_pack_I n = [b0; b1; b2; b3]
    /\ exists s1 w' more,
         _receive_all 4 (client w) = Ret (Some [b0; b1; b2; b3]) s1
         /\ _handle_client self a w = Ret tt w'
         /\ requested (client w')
            = requested s1 ++ (if n =? 0 then [] else n :: more).
Proof.
  intros Hin Htake.
  destruct (struct_unpack_I_bound b0 b1 b2 b3) as (n & Hsize & Hbound).
  exists n. split; [exact Hsize|]. split; [now injection Hsize|].
  split; [exact Hbound|]. split; [now apply pack_unpack|].
  destruct (receive_all_chunks 4 chunks rest _ Hin) as (s1 & _ & Hhead & _).
  { rewrite <- Htake in Hsize. now apply take_4_length in Hsize. }
  change (N.to_nat 4) with 4%nat in Hhead. rewrite Htake in Hhead.
  exists s1.
  destruct (N.eqb_spec n 0) as [->|Hn].
  - rewrite (handle_no_payload _ _ _ _ _ s1 s1 (Some []) Hhead Hsize eq_refl eq_refl).
    eexists _, []. split; [exact Hhead|]. split; [reflexivity|].
    simpl. now rewrite app_nil_r.
  - pose proof (receive_all_requested n s1 Hn) as Hreq.
    destruct (_receive_all n s1) as [v s2|e s2|] eqn:Hread; [| |contradiction];
      destruct Hreq as (more & Hreq).
    + destruct (truthy v) eqn:Hv.
      * apply not_truthy in Hv as (d & -> & Hd).
        destruct (save_returns self d a (set_client s2 (announced n s1 w)))
          as (w3 & Hsave & Hclient).
        rewrite (handle_payload _ _ _ _ _ _ _ _ _ Hhead Hsize Hread Hd Hsave).
        eexists _, more. split; [exact Hhead|]. split; [reflexivity|].
        rewrite acknowledge_requested, Hclient. exact Hreq.
      * rewrite (handle_no_payload _ _ _ _ _ _ _ _ Hhead Hsize Hread Hv).
        eexists _, more. split; [exact Hhead|]. split; [reflexivity|]. exact Hreq.
    + rewrite (handle_raise_in_payload _ _ _ _ _ _ _ _ Hhead Hsize Hread).
      eexists _, more. split; [exact Hhead|]. split; [reflexivity|]. exact Hreq.
Qed.

Lemma declared_size_unbounded_witness :
  exists w' more,
    _handle_client sample_server phone
      (sample_world ready_disk next_day [Chunk [xff; xff]; Chunk [xff; xff]]) = Ret tt w'
    /\ requested (client w') = 4 :: 2 :: 4294967295 :: more.
Proof.
  destruct (declared_size_unbounded xff xff xff xff [[xff; xff]; [xff; xff]] []
              sample_server phone
              (sample_world ready_disk next_day [Chunk [xff; xff]; Chunk [xff; xff]]))
    as (n & Hsize & _ & _ & _ & s1 & w' & more & Hhead & Hrun & Hreq).
  - split; [repeat constructor; discriminate | reflexivity].
  - reflexivity.
  - injection Hsize as <-. vm_compute in Hhead. injection Hhead as <-.
    exists w', more. split; [exact Hrun | exact Hreq].
Defined.

(** ** Starting and stopping *)

(** A step of the server thread leaves the flag and the main thread
    alone, and ends inside [_run_server] or with its return. *)
Lemma server_step_keeps (o : outcome) (s : system) :
  running (self (step (ServerRuns o) s)) = running (self s)
  /\ main_thread (step (ServerRuns o) s) = main_thread s
  /\ ((forall e, server_thread s <> Crashed e) ->
      forall e, server_thread (step (ServerRuns o) s) <> Crashed e).
Proof.
  run_system.
  destruct (server_thread s) eqn:Hpc; simpl;
    repeat (break_match; simpl);
    repeat split; try assumption;
    try (intros Hok e'; try discriminate; try apply Hok).
Qed.

Lemma in_step_fresh (p : PhotoServer) : in_step (fresh_system p).
Proof. split; [reflexivity | discriminate]. Qed.

(** What a step does to the main thread: it stays, or moves on by one. *)
Lemma step_main_thread (ev : event) (s : system) :
  in_step s ->
  in_step (step ev s)
  /\ (main_thread (step ev s) = main_thread s
      \/ main_thread s = BeforeStart /\ main_thread (step ev s) = Mainloop
      \/ main_thread s = Mainloop /\ main_thread (step ev s) = Stopping
      \/ main_thread s = Stopping /\ main_thread (step ev s) = Finished).
Proof.
  intros [Hflag Hok].
  destruct ev as [| | |o].
  - unfold step. destruct (main_thread s) eqn:Hpc;
      try (split; [split; [rewrite Hpc; exact Hflag | exact Hok] | auto]; fail).
    split; [split; [reflexivity | intros e; discriminate] | auto].
  - unfold step. destruct (main_thread s) eqn:Hpc;
      try (split; [split; [rewrite Hpc; exact Hflag | exact Hok] | auto]; fail).
    split; [split; [reflexivity | exact Hok] | auto].
  - unfold step. destruct (main_thread s) eqn:Hpc;
      try (split; [split; [rewrite Hpc; exact Hflag | exact Hok] | auto]; fail).
    unfold stop_server_close, on_self. unfold_monad.
    destruct (server_socket (self s)); simpl;
      (split; [split; [exact Hflag | exact Hok] | auto 6]).
  - destruct (server_step_keeps o s) as (Hrun & Hmain & Hpc).
    split; [split|auto].
    + rewrite Hrun, Hmain. exact Hflag.
    + apply Hpc, Hok.
Qed.

Lemma in_step_run (evs : list event) (s : system) : in_step s -> in_step (run_events evs s).
Proof.
  revert s. induction evs as [|ev evs IH]; intros s Hs; [exact Hs|].
  simpl. apply IH. now apply step_main_thread.
Qed.

(** Once the main thread has asked for the stop, it has for good. *)
Lemma stopped_run (evs : list event) (s : system) :
  in_step s -> stopped (main_thread s) = true ->
  stopped (main_thread (run_events evs s)) = true.
Proof.
  revert s. induction evs as [|ev evs IH]; intros s Hs Hstop; [exact Hstop|].
  simpl. destruct (step_main_thread ev s Hs) as (Hs' & Hmove).
  apply IH; [exact Hs'|].
  destruct Hmove as [H|[[H _]|[[H _]|[_ H]]]]; rewrite H in *;
    first [assumption | discriminate | reflexivity].
Qed.

Lemma flag_trace_head (evs : list event) (s : system) :
  exists tail, flag_trace evs s = running (self s) :: tail.
Proof. destruct evs; simpl; eauto. Qed.

Lemma changes_cons (a b x : bool) (evs : list event) (s : system) :
  changes a b (x :: flag_trace evs s)
  = ((if eqb x a && eqb (running (self s)) b then 1 else 0)
     + changes a b (flag_trace evs s))%nat.
Proof. destruct (flag_trace_head evs s) as (tail & ->). reflexivity. Qed.

(** The flag falls when the main thread enters [stop_server], and at no
    other time. *)
Lemma falls_once (evs : list event) (s : system) :
  in_step s ->
  changes true false (flag_trace evs s)
  = if stopped (main_thread s) then 0%nat
    else if stopped (main_thread (run_events evs s)) then 1%nat else 0%nat.
Proof.
  revert s. induction evs as [|ev evs IH]; intros s Hs.
  - simpl. now destruct (stopped (main_thread s)).
  - cbn [flag_trace run_events fold_left]. fold (run_events evs (step ev s)).
    rewrite changes_cons.
    destruct (step_main_thread ev s Hs) as (Hs' & Hmove).
    rewrite (IH _ Hs').
    pose proof (stopped_run evs (step ev s) Hs') as Hfinal.
    destruct Hs as [Hflag _], Hs' as [Hflag' _]. rewrite Hflag, Hflag'.
    destruct Hmove as [H|[[H1 H]|[[H1 H]|[H1 H]]]]; rewrite ?H1, H in *.
    + destruct (main_thread s); simpl; try reflexivity;
        destruct (stopped _); reflexivity.
    + simpl. reflexivity.
    + simpl. now rewrite Hfinal.
    + reflexivity.
Qed.

(** [stop_server] is its two parts run one after the other. *)
Lemma stop_server_in_two_steps (s : system) :
  main_thread s = Mainloop ->
  stop_server s = Ret tt (step StopGoesOn (step StopPressed s))
  /\ running (self (step StopPressed s)) = false
  /\ server_socket (self (step StopPressed s)) = server_socket (self s)
  /\ running (self (step StopGoesOn (step StopPressed s))) = false
  /\ server_socket (self (step StopGoesOn (step StopPressed s)))
     = close_listener <$> server_socket (self s).
Proof.
  intros Hpc. unfold stop_server, step. rewrite Hpc.
  unfold stop_server_flag, stop_server_close, say, on_self. unfold_monad. simpl.
  destruct (server_socket (self s)) eqn:Hsock; simpl; rewrite ?Hsock; repeat split.
Qed.

Lemma run_events_app (evs more : list event) (s : system) :
  run_events (evs ++ more) s = run_events more (run_events evs s).
Proof. unfold run_events. now rewrite fold_left_app. Qed.

(** [accept] raising once the flag is down ends the loop quietly: a call
    made on the closed socket, or a call, made or waiting, that the
    system makes fail. *)
Lemma accept_fails_after_stop (o : outcome) (l : listener) (s : system) :
  running (self s) = false ->
  server_socket (self s) = Some l ->
  server_thread s = Blocked /\ (exists e, o = Fails e)
  \/ server_thread s = InAccept /\ (listener_closed l = true \/ exists e, o = Fails e) ->
  server_thread (step (ServerRuns o) s) = Returned
  /\ console (step (ServerRuns o) s) = console s ++ [Parado]
  /\ handlers (step (ServerRuns o) s) = handlers s.
Proof.
  intros Hflag Hsock [(Hpc & e & ->)|(Hpc & Hfail)]; run_system; rewrite Hpc, Hsock; simpl.
  - rewrite Hflag. simpl. repeat split.
  - destruct (listener_closed l) eqn:Hclosed.
    + simpl. rewrite Hflag. simpl. repeat split.
    + destruct Hfail as [Hfail|(e & ->)]; [discriminate|].
      simpl. rewrite Hflag. simpl. repeat split.
Qed.

(** A call of [accept] that waits goes on waiting while nothing arrives,
    whether the socket has been closed under it or not. *)
Lemma blocked_call_waits (l : listener) (s : system) :
  server_thread s = Blocked ->
  server_socket (self s) = Some l ->
  step (ServerRuns Nothing) s = s.
Proof.
  intros Hpc Hsock. destruct s as [p pc mpc hs out]. simpl in *. subst pc.
  run_system. simpl. rewrite Hsock. reflexivity.
Qed.

Lemma loop_test_step (o : outcome) (s : system) :
  server_thread s = LoopTest ->
  server_thread (step (ServerRuns o) s) = (if running (self s) then InAccept else Returned).
Proof.
  intros Hpc. run_system. rewrite Hpc. simpl.
  destruct (running (self s)); reflexivity.
Qed.

Lemma stopped_while_blocked (p : PhotoServer) (e : os_errno) :
  let s1 := run_events (stop_while_blocked ++ [ServerRuns (Fails e)]) (fresh_system p) in
  server_thread s1 = Returned /\ console s1 = [Iniciado; Parando; Parado].
Proof. split; reflexivity. Qed.

(** C8. In every run of the program: [stop_server] clears the flag and
    then closes the listening socket. When the call of [accept], made on
    the closed socket or made before and still waiting, then raises its
    [OSError], [_run_server] prints "Servidor foi parado." and returns,
    starting no handler, and no exception leaves it. The close alone does
    not end a call that waits: while nothing arrives, it goes on waiting.
    At the loop test the thread goes into [accept] while the flag is set
    and returns when it is not. A server that is started, waits in
    [accept], is stopped and then sees the call fail prints its start,
    "Parando o servidor..." and "Servidor foi parado.", and has returned.
    The flag falls exactly when the main thread enters [stop_server],
    once, and is never set again. *)
Theorem stop_is_final (p : PhotoServer) (evs : list event) :
  let s := run_events evs (fresh_system p) in
  (main_thread s = Mainloop ->
   running (self s) = true
   /\ stop_server s = Ret tt (step StopGoesOn (step StopPressed s))
   /\ running (self (step StopPressed s)) = false
   /\ server_socket (self (step StopPressed s)) = server_socket (self s)
   /\ running (self (step StopGoesOn (step StopPressed s))) = false
   /\ server_socket (self (step StopGoesOn (step StopPressed s)))
      = close_listener <$> server_socket (self s))
  /\ (forall (o : outcome) (l : listener),
         running (self s) = false ->
         server_socket (self s) = Some l ->
         server_thread s = Blocked /\ (exists e, o = Fails e)
         \/ server_thread s = InAccept
            /\ (listener_closed l = true \/ exists e, o = Fails e) ->
         server_thread (step (ServerRuns o) s) = Returned
         /\ console (step (ServerRuns o) s) = console s ++ [Parado]
         /\ handlers (step (ServerRuns o) s) = handlers s)
  /\ (forall l : listener,
         server_thread s = Blocked ->
         server_socket (self s) = Some l ->
         step (ServerRuns Nothing) s = s)
  /\ (forall o : outcome,
         server_thread s = LoopTest ->
         server_thread (step (ServerRuns o) s)
         = (if running (self s) then InAccept else Returned))
  /\ (forall e : os_errno,
         let s1 := run_events (stop_while_blocked ++ [ServerRuns (Fails e)])
                     (fresh_system p) in
         server_thread s1 = Returned /\ console s1 = [Iniciado; Parando; Parado])
  /\ (forall e, server_thread s <> Crashed e)
  /\ changes true false (flag_trace evs (fresh_system p))
     = (if stopped (main_thread s) then 1 else 0)%nat
  /\ (forall more : list event,
         stopped (main_thread s) = true ->
         running (self (run_events more s)) = false).
Proof.
  intros s.
  pose proof (in_step_run evs _ (in_step_fresh p)) as Hs. fold s in Hs.
  split; [|split; [|split; [|split; [|split; [|split; [|split]]]]]].
  - intros Hpc. destruct Hs as [Hflag _]. rewrite Hpc in Hflag.
    split; [exact Hflag|]. now apply stop_server_in_two_steps.
  - intros o l Hflag Hsock Hfail. now apply (accept_fails_after_stop o l).
  - intros l. apply blocked_call_waits.
  - intros o. apply loop_test_step.
  - intros e. apply stopped_while_blocked.
  - apply Hs.
  - rewrite (falls_once evs _ (in_step_fresh p)). reflexivity.
  - intros more Hstop.
    pose proof (stopped_run more s Hs Hstop) as Hfinal.
    destruct (in_step_run more s Hs) as [Hflag _]. rewrite Hflag.
    now destruct (main_thread (run_events more s)).
Qed.

Lemma stop_is_final_witness :
  running (self (run_events [RunCalled; ServerRuns Nothing; ServerRuns Nothing; StopPressed]
                   (fresh_system sample_server))) = false
  /\ server_thread (run_events (stop_while_blocked ++ [ServerRuns (Fails EBADF)])
                      (fresh_system sample_server)) = Returned
  /\ server_thread (run_events (stop_while_blocked ++ [ServerRuns Nothing])
                      (fresh_system sample_server)) = Blocked
  /\ server_thread (run_events (stop_at_accept ++ [ServerRuns Nothing])
                      (fresh_system sample_server)) = Returned
  /\ running (self (run_events (stop_while_blocked ++ [ServerRuns (Fails EMFILE); RunCalled])
                      (fresh_system sample_server))) = false.
Proof.
  split; [|split; [|split; [|split]]].
  - destruct (stop_is_final sample_server [RunCalled; ServerRuns Nothing; ServerRuns Nothing])
      as (Hstop & _).
    destruct Hstop as (_ & _ & Hflag & _); [vm_compute; reflexivity|]. exact Hflag.
  - rewrite run_events_app.
    change (run_events [?ev] ?s) with (step ev s).
    destruct (stop_is_final sample_server stop_while_blocked) as (_ & Hexit & _).
    refine (proj1 (Hexit (Fails EBADF) (mkListener ("0.0.0.0"%string, 5001) 5 true true) _ _ _));
      [vm_compute; reflexivity | vm_compute; reflexivity
      | left; split; [vm_compute; reflexivity | now exists EBADF]].
  - rewrite run_events_app.
    change (run_events [?ev] ?s) with (step ev s).
    destruct (stop_is_final sample_server stop_while_blocked) as (_ & _ & Hwait & _).
    rewrite (Hwait (mkListener ("0.0.0.0"%string, 5001) 5 true true));
      vm_compute; reflexivity.
  - rewrite run_events_app.
    change (run_events [?ev] ?s) with (step ev s).
    destruct (stop_is_final sample_server stop_at_accept) as (_ & Hexit & _).
    refine (proj1 (Hexit Nothing (mkListener ("0.0.0.0"%string, 5001) 5 true true) _ _ _));
      [vm_compute; reflexivity | vm_compute; reflexivity
      | right; split; [vm_compute; reflexivity | left; reflexivity]].
  - destruct (stop_is_final sample_server stop_while_blocked)
      as (_ & _ & _ & _ & _ & _ & _ & Hstay).
    rewrite run_events_app. apply Hstay. vm_compute. reflexivity.
Defined.

(** * Further properties of the code *)

(** ** More about [_receive_all] *)

Lemma recv_at_most (k : N) (s s' : socket) (c : bytes) :
  recv k s = Ret c s' -> len c <= k.
Proof.
  unfold recv. simpl.
  destruct (inbound s) as [|[c0|e] rest]; try discriminate.
  - intros H. injection H as <- _. unfold len. simpl. lia.
  - destruct (N.leb_spec (len c0) k) as [Hle|Hgt]; intros H; injection H as <- _.
    + exact Hle.
    + unfold len. rewrite length_take. lia.
Qed.

Lemma receive_loop_exact (fuel : nat) :
  forall (size : N) (data d : bytes) (s s' : socket),
    len data <= size ->
    receive_loop fuel size data s = Ret (Some d) s' ->
    len d = size /\ exists more, d = data ++ more.
Proof.
  induction fuel as [|fuel IH]; intros size data d s s' Hle Hrun; [discriminate|].
  simpl in Hrun. destruct (N.ltb_spec (len data) size) as [Hlt|Hge].
  - unfold bind in Hrun at 1.
    destruct (recv (size - len data) s) as [c s1|e s1|] eqn:Hrecv; try discriminate.
    apply recv_at_most in Hrecv.
    destruct (truthy_bytes c); cbn [negb] in Hrun; [|discriminate].
    destruct (IH size (data ++ c) d s1 s') as (Hlen & more & ->); auto.
    + rewrite len_app. lia.
    + split; [exact Hlen|]. exists (c ++ more). now rewrite app_assoc.
  - injection Hrun as <- _. split; [lia|]. exists []. now rewrite app_nil_r.
Qed.

Lemma receive_all_exact_size (size : N) (s s' : socket) (d : bytes) :
  _receive_all size s = Ret (Some d) s' -> len d = size.
Proof.
  unfold _receive_all. intros Hrun.
  apply receive_loop_exact in Hrun; [apply Hrun|].
  change (len []) with 0. lia.
Qed.

(** X1. Whatever the connection does (short reads, empty reads, errors),
    a value of [bytes] that [_receive_all(sock, size)] returns has exactly
    [size] bytes: the caller never sees a partial or an overlong read. *)
Theorem receive_all_returns_size (size : N) (s s' : socket) (d : bytes) :
  _receive_all size s = Ret (Some d) s' -> len d = size.
Proof. apply receive_all_exact_size. Qed.

Lemma receive_all_returns_size_witness :
  len ["h"; "e"; "l"]%byte = 3.
Proof.
  apply (receive_all_returns_size 3
           (accepted [Chunk ["h"]%byte; Chunk ["e"; "l"; "l"; "o"]%byte] true)
           (mkSocket [Chunk ["l"; "o"]%byte] [3; 2] true [] false)).
  vm_compute. reflexivity.
Defined.

(** X2. A read takes nothing beyond its count: two reads in a row return
    consecutive slices of the stream, and what follows them is still
    pending on the connection. *)
Theorem reads_compose (n m : N) (chunks : list bytes) (rest : list recv_event) (s : socket) :
  Forall nonempty chunks ->
  inbound s = map Chunk chunks ++ rest ->
  n + m <= len (concat chunks) ->
  exists s1 s2 chunks2,
    _receive_all n s = Ret (Some (take (N.to_nat n) (concat chunks))) s1
    /\ _receive_all m s1
       = Ret (Some (take (N.to_nat m) (drop (N.to_nat n) (concat chunks)))) s2
    /\ inbound s2 = map Chunk chunks2 ++ rest
    /\ concat chunks2 = drop (N.to_nat (n + m)) (concat chunks).
Proof.
  intros Hne Hin Hlen.
  destruct (receive_all_chunks n chunks rest s) as (s1 & chunks1 & Hrun1 & Hin1 & Hcat1 & _);
    [split; assumption | lia |].
  destruct (receive_all_chunks m chunks1 rest s1 Hin1) as (s2 & chunks2 & Hrun2 & Hin2 & Hcat2 & _).
  { rewrite Hcat1. unfold len in *. rewrite length_drop. lia. }
  exists s1, s2, chunks2. rewrite Hcat1 in Hrun2, Hcat2.
  split; [exact Hrun1|]. split; [exact Hrun2|]. split; [apply Hin2|].
  rewrite Hcat2, drop_drop. f_equal. lia.
Qed.

Lemma reads_compose_witness :
  exists s1 s2,
    _receive_all 2 (accepted [Chunk hello; Chunk hello] true) = Ret (Some ["h"; "e"]%byte) s1
    /\ _receive_all 4 s1 = Ret (Some ["l"; "l"; "o"; "h"]%byte) s2.
Proof.
  destruct (reads_compose 2 4 [hello; hello] [] (accepted [Chunk hello; Chunk hello] true))
    as (s1 & s2 & _ & H1 & H2 & _).
  - repeat constructor; discriminate.
  - reflexivity.
  - vm_compute. discriminate.
  - exists s1, s2. split; [exact H1 | exact H2].
Defined.

(** When the connection fails before [size] bytes have come, the loop
    lets the error through. *)
Lemma receive_loop_reset (chunks : list bytes) :
  forall (fuel : nat) (size : N) (data : bytes) (s : socket)
         (e : os_errno) (rest : list recv_event),
    Forall nonempty chunks ->
    inbound s = map Chunk chunks ++ RecvFail e :: rest ->
    len data + len (concat chunks) < size ->
    (length chunks + 1 <= fuel)%nat ->
    exists s', receive_loop fuel size data s = Raise (OSError e) s'
               /\ inbound s' = rest /\ same_peer s s'.
Proof.
  induction chunks as [|c cs IH]; intros fuel size data s e rest Hne Hin Hlt Hfuel;
    (destruct fuel as [|fuel]; [simpl in Hfuel; lia|]);
    simpl in Hlt, Hin; simpl receive_loop;
    assert ((len data <? size) = true) as Htest
      by (apply N.ltb_lt; unfold len in *; lia);
    rewrite Htest; unfold bind at 1.
  - rewrite (recv_fail _ _ _ _ Hin).
    eexists. split; [reflexivity|]. repeat split.
  - apply Forall_cons in Hne as [Hc Hcs]. rewrite len_app in Hlt.
    rewrite (recv_whole _ _ _ _ Hin) by lia.
    apply truthy_bytes_true in Hc as Hc'. rewrite Hc'. cbn [negb].
    destruct (IH fuel size (data ++ c)
                (set_inbound (map Chunk cs ++ RecvFail e :: rest)
                   (log_request (size - len data) s)) e rest)
      as (s' & Hrun & Hin' & Hpeer); auto.
    { rewrite len_app. lia. }
    { simpl in Hfuel. lia. }
    exists s'. repeat split; auto; apply Hpeer.
Qed.

Lemma receive_all_reset (n : N) (chunks : list bytes) (e : os_errno)
    (rest : list recv_event) (s : socket) :
  delivers s chunks (RecvFail e :: rest) ->
  len (concat chunks) < n ->
  exists s', _receive_all n s = Raise (OSError e) s' /\ same_peer s s'.
Proof.
  intros [Hne Hin] Hn. unfold _receive_all.
  destruct (receive_loop_reset chunks (S (S (length (inbound s)))) n [] s e rest)
    as (s' & Hrun & _ & Hpeer); auto.
  - rewrite Hin, length_app, length_map. lia.
  - eauto.
Qed.

(** ** Every path through the handler *)

Lemma recv_same_peer (k : N) (s : socket) :
  match recv k s with
  | Ret _ s' | Raise _ s' => same_peer s s'
  | OutOfFuel => False
  end.
Proof.
  unfold recv. simpl. destruct (inbound s) as [|[c|e] rest]; simpl;
    try destruct (len c <=? k); repeat split.
Qed.

Lemma receive_loop_same_peer (fuel : nat) :
  forall (size : N) (data : bytes) (s : socket),
    match receive_loop fuel size data s with
    | Ret _ s' | Raise _ s' => same_peer s s'
    | OutOfFuel => True
    end.
Proof.
  induction fuel as [|fuel IH]; intros size data s; [exact I|].
  simpl. destruct (len data <? size); [|apply same_peer_refl].
  unfold bind at 1. pose proof (recv_same_peer (size - len data) s) as Hrecv.
  destruct (recv (size - len data) s) as [c s1|e s1|]; [|exact Hrecv|exact I].
  destruct (truthy_bytes c); cbn [negb]; [|exact Hrecv].
  specialize (IH size (data ++ c) s1).
  destruct (receive_loop fuel size (data ++ c) s1); eauto using same_peer_trans.
Qed.

Lemma receive_all_same_peer (size : N) (s : socket) :
  match _receive_all size s with
  | Ret _ s' | Raise _ s' => same_peer s s'
  | OutOfFuel => False
  end.
Proof.
  pose proof (receive_all_total size s) as Htotal.
  pose proof (receive_loop_same_peer (S (S (length (inbound s)))) size [] s) as Hpeer.
  unfold _receive_all in *.
  destruct (receive_loop _ size [] s); [exact Hpeer | exact Hpeer | congruence].
Qed.

(** Whatever [write_image] does, it does to the one path it is given. *)
Lemma write_image_elsewhere (fp : path) (d : bytes) (fs : filesystem) :
  match write_image fp d fs with
  | Ret _ fs' | Raise _ fs' => forall q, q <> fp -> nodes fs' !! q = nodes fs !! q
  | OutOfFuel => False
  end.
Proof.
  unfold write_image, open_wb, check_parent, file_write, file_close.
  unfold_monad. simpl.
  repeat (break_match; simpl); try discriminate;
    intros q Hq; rewrite ?lookup_insert_ne by congruence; reflexivity.
Qed.

Lemma save_path_nonroot (self : PhotoServer) (w : world) : save_path self w <> [].
Proof. unfold save_path, os_path_join. now destruct (data_dir self). Qed.

(** What the storage step leaves behind, in both of its outcomes. *)
Lemma save_outcome (self : PhotoServer) (d : bytes) (a : address) (w : world) :
  exists w3,
    _save_and_display_image self d a w = Ret tt w3
    /\ client w3 = client w
    /\ now w3 = now w
    /\ (forall q, q <> save_path self w -> nodes (disk w3) !! q = nodes (disk w) !! q)
    /\ ((nodes (disk w3) !! save_path self w = Some (File d)
         /\ tk_queue w3 = tk_queue w ++ [mkCall d (save_path self w) a]
         /\ stdout w3 = stdout w ++ [PrintSaved (save_path self w)])
        \/ (exists e, tk_queue w3 = tk_queue w
                      /\ stdout w3 = stdout w ++ [PrintSaveError (OSError e)])).
Proof.
  pose proof (write_image_elsewhere (save_path self w) d (disk w)) as Helse.
  destruct (write_image_cases (save_path self w) d (disk w))
    as [(Hrun & _)|(e & fs' & Hrun & _)]; rewrite Hrun in Helse.
  - unfold _save_and_display_image, on_disk, print, root_after. unfold_monad.
    fold (save_path self w). rewrite Hrun.
    eexists. split; [reflexivity|]. repeat split; [exact Helse|].
    left. simpl. repeat split. apply lookup_insert_eq.
  - rewrite (save_fails _ _ _ _ _ _ Hrun).
    eexists. split; [reflexivity|]. repeat split; [exact Helse|].
    right. exists e. split; reflexivity.
Qed.

Lemma receive_loop_raises_oserror (fuel : nat) :
  forall (size : N) (data : bytes) (s s' : socket) (e : exn),
    receive_loop fuel size data s = Raise e s' -> is_OSError e = true.
Proof.
  induction fuel as [|fuel IH]; intros size data s s' e Hrun; [discriminate|].
  simpl in Hrun. destruct (len data <? size); [|discriminate].
  unfold bind in Hrun at 1. unfold recv in Hrun. simpl in Hrun.
  destruct (inbound s) as [|[c|e0] rest]; simpl in Hrun; try discriminate.
  - destruct (len c <=? size - len data);
      destruct (truthy_bytes _); cbn [negb] in Hrun; try discriminate; eauto.
  - now injection Hrun as <- _.
Qed.

(** The three ways a connection ends: given up before the storage step,
    stored, or not stored because the storage step failed. In the last
    two the acknowledgement is attempted. *)
Lemma handler_outcome (self : PhotoServer) (a : address) (w : world) :
  exists w' lines,
    _handle_client self a w = Ret tt w'
    /\ stdout w' = stdout w ++ lines
    /\ (forall q, q <> save_path self w -> nodes (disk w') !! q = nodes (disk w) !! q)
    /\ ((disk w' = disk w /\ sent (client w') = sent (client w)
         /\ tk_queue w' = tk_queue w
         /\ (lines = [] \/ (exists e, lines = [PrintClientError a (OSError e)])
             \/ (exists n, lines = [PrintImageSize n])
             \/ (exists n e, lines = [PrintImageSize n; PrintClientError a (OSError e)])))
        \/ (exists d ack,
              nonempty d
              /\ (nodes (disk w') !! save_path self w = Some (File d)
                  /\ tk_queue w' = tk_queue w ++ [mkCall d (save_path self w) a]
                  /\ lines = [PrintImageSize (len d); PrintSaved (save_path self w)] ++ ack
                  \/ (exists e, tk_queue w' = tk_queue w
                                /\ lines = [PrintImageSize (len d); PrintSaveError (OSError e)] ++ ack))
              /\ (peer_open (client w) = true /\ ack = []
                  /\ sent (client w') = sent (client w) ++ OK
                  \/ peer_open (client w) = false /\ ack = [PrintClientError a (OSError EPIPE)]
                     /\ sent (client w') = sent (client w)))).
Proof.
  pose proof (receive_all_same_peer 4 (client w)) as Hpeer1.
  destruct (_receive_all 4 (client w)) as [v s1|e s1|] eqn:Hhead; [| |contradiction].
  - destruct (truthy v) eqn:Hv.
    + apply not_truthy in Hv as (h & -> & Hh).
      apply receive_all_exact_size in Hhead as Hlen.
      destruct h as [|b0 [|b1 [|b2 [|b3 [|b4 h]]]]];
        try (exfalso; unfold len in Hlen; simpl in Hlen; lia).
      destruct (struct_unpack_I_bound b0 b1 b2 b3) as (n & Hsize & _).
      pose proof (receive_all_same_peer n s1) as Hpeer2.
      destruct (_receive_all n s1) as [v2 s2|e s2|] eqn:Hread; [| |contradiction].
      * destruct (truthy v2) eqn:Hv2.
        -- apply not_truthy in Hv2 as (d & -> & Hd).
           apply receive_all_exact_size in Hread as Hdn. subst n.
           destruct (save_outcome self d a (set_client s2 (announced (len d) s1 w)))
             as (w3 & Hsave & Hclient & Hnow & Helse & Hstored).
           rewrite (handle_payload _ _ _ _ _ _ _ _ _ Hhead Hsize Hread Hd Hsave).
           pose proof (same_peer_trans _ _ _ Hpeer1 Hpeer2) as (Hopen & Hsent & _).
           change (save_path self (set_client s2 (announced (len d) s1 w)))
             with (save_path self w) in *.
           cbn [client stdout disk tk_queue set_client announced add_line] in *.
           unfold acknowledge. rewrite Hclient, Hopen.
           destruct (peer_open (client w)) eqn:Hpeer.
           ++ destruct Hstored as [(Hfile & Hq & Hout)|(e & Hq & Hout)].
              ** eexists _, ([PrintImageSize (len d); PrintSaved (save_path self w)] ++ []).
                 split; [reflexivity|]. cbn.
                 split; [rewrite Hout, <- app_assoc; reflexivity|].
                 split; [exact Helse|]. right. exists d, [].
                 split; [exact Hd|]. split; [left; auto|].
                 left. rewrite Hsent. auto.
              ** eexists _, ([PrintImageSize (len d); PrintSaveError (OSError e)] ++ []).
                 split; [reflexivity|]. cbn.
                 split; [rewrite Hout, <- app_assoc; reflexivity|].
                 split; [exact Helse|]. right. exists d, [].
                 split; [exact Hd|]. split; [right; eauto|].
                 left. rewrite Hsent. auto.
           ++ destruct Hstored as [(Hfile & Hq & Hout)|(e & Hq & Hout)].
              ** eexists _, ([PrintImageSize (len d); PrintSaved (save_path self w)]
                               ++ [PrintClientError a (OSError EPIPE)]).
                 split; [reflexivity|]. cbn.
                 split; [rewrite Hout, <- !app_assoc; reflexivity|].
                 split; [exact Helse|]. right.
                 exists d, [PrintClientError a (OSError EPIPE)].
                 split; [exact Hd|]. split; [left; auto|].
                 right. rewrite Hclient, Hsent. auto.
              ** eexists _, ([PrintImageSize (len d); PrintSaveError (OSError e)]
                               ++ [PrintClientError a (OSError EPIPE)]).
                 split; [reflexivity|]. cbn.
                 split; [rewrite Hout, <- !app_assoc; reflexivity|].
                 split; [exact Helse|]. right.
                 exists d, [PrintClientError a (OSError EPIPE)].
                 split; [exact Hd|]. split; [right; eauto|].
                 right. rewrite Hclient, Hsent. auto.
        -- rewrite (handle_no_payload _ _ _ _ _ _ _ _ Hhead Hsize Hread Hv2).
           eexists _, _. split; [reflexivity|]. split; [reflexivity|].
           split; [reflexivity|]. left. repeat split; eauto.
           apply (same_peer_trans _ _ _ Hpeer1 Hpeer2).
      * rewrite (handle_raise_in_payload _ _ _ _ _ _ _ _ Hhead Hsize Hread).
        apply receive_loop_raises_oserror in Hread.
        destruct e as [e| |]; simpl in Hread; try discriminate.
        eexists _, _. split; [reflexivity|]. simpl. rewrite <- app_assoc.
        split; [reflexivity|]. split; [reflexivity|]. left. repeat split; eauto 10.
        apply (same_peer_trans _ _ _ Hpeer1 Hpeer2).
    + rewrite (handle_no_header _ _ _ _ _ Hhead Hv).
      eexists _, []. split; [reflexivity|]. simpl. rewrite app_nil_r.
      split; [reflexivity|]. split; [reflexivity|]. left. repeat split; eauto.
      apply Hpeer1.
  - rewrite (handle_raise_in_header _ _ _ _ _ Hhead).
    apply receive_loop_raises_oserror in Hhead.
    destruct e as [e| |]; simpl in Hhead; try discriminate.
    eexists _, _. split; [reflexivity|]. simpl.
    split; [reflexivity|]. split; [reflexivity|]. left. repeat split; eauto 10.
    apply Hpeer1.
Qed.

(** X3. A connection that breaks while the header or the payload is
    still coming (a [recv] raising [OSError]) is given up: the error is
    printed, the disk is as it was, nothing is sent, nothing is shown,
    and the socket is closed. *)
Theorem reset_before_end_aborts
    (self : PhotoServer) (a : address) (w : world)
    (chunks : list bytes) (e : os_errno) (rest : list recv_event) :
  delivers (client w) chunks (RecvFail e :: rest) ->
  truncated (concat chunks) ->
  exists w' before,
    _handle_client self a w = Ret tt w'
    /\ stdout w' = stdout w ++ before ++ [PrintClientError a (OSError e)]
    /\ disk w' = disk w
    /\ sent (client w') = sent (client w)
    /\ tk_queue w' = tk_queue w
    /\ closed (client w') = true.
Proof.
  intros Hin [Hshort|(n & Hsize & Hcut)].
  - destruct (receive_all_reset 4 chunks e rest _ Hin Hshort) as (s1 & Hhead & Hpeer).
    rewrite (handle_raise_in_header _ _ _ _ _ Hhead).
    eexists _, []. split; [reflexivity|]. repeat split. apply Hpeer.
  - apply take_4_length in Hsize as Hlong.
    destruct (receive_all_chunks 4 chunks _ _ Hin Hlong)
      as (s1 & chunks1 & Hhead & Hin1 & Hcat & Hpeer1).
    change (N.to_nat 4) with 4%nat in *. rewrite <- Hcat in Hcut.
    destruct (receive_all_reset n chunks1 e rest s1 Hin1 Hcut) as (s2 & Hread & Hpeer2).
    rewrite (handle_raise_in_payload _ _ _ _ _ _ _ _ Hhead Hsize Hread).
    eexists _, [PrintImageSize n]. split; [reflexivity|]. simpl.
    rewrite <- app_assoc. repeat split.
    apply (same_peer_trans _ _ _ Hpeer1 Hpeer2).
Qed.

Lemma reset_before_end_aborts_witness :
  exists w',
    _handle_client sample_server phone
      (sample_world ready_disk next_day
         [Chunk (struct_pack_I 5 ++ ["h"; "e"]%byte); RecvFail ECONNRESET]) = Ret tt w'
    /\ stdout w' = [PrintImageSize 5; PrintClientError phone (OSError ECONNRESET)]
    /\ disk w' = ready_disk.
Proof.
  destruct (reset_before_end_aborts sample_server phone
              (sample_world ready_disk next_day
                 [Chunk (struct_pack_I 5 ++ ["h"; "e"]%byte); RecvFail ECONNRESET])
              [struct_pack_I 5 ++ ["h"; "e"]%byte] ECONNRESET [])
    as (w' & before & Hrun & Hout & Hdisk & _).
  - split; [repeat constructor; discriminate | reflexivity].
  - right. exists 5. split; [reflexivity | vm_compute; reflexivity].
  - exists w'. split; [exact Hrun|]. split; [|exact Hdisk].
    vm_compute in Hrun. injection Hrun as <-. reflexivity.
Defined.

(** The header and the payload of one frame arrive, whatever follows. *)
Lemma frame_arrives (w : world) (P extra : bytes) (chunks : list bytes)
    (rest : list recv_event) :
  len P < 2 ^ 32 ->
  delivers (client w) chunks rest ->
  concat chunks = struct_pack_I (len P) ++ P ++ extra ->
  exists s1 s2 chunks2,
    _receive_all 4 (client w) = Ret (Some (struct_pack_I (len P))) s1
    /\ struct_unpack_I (struct_pack_I (len P)) = inr (len P)
    /\ _receive_all (len P) s1 = Ret (Some P) s2
    /\ same_peer (client w) s2
    /\ delivers s2 chunks2 rest
    /\ concat chunks2 = extra.
Proof.
  intros Hsize Hin Hcat.
  destruct (receive_all_chunks 4 chunks rest _ Hin)
    as (s1 & chunks1 & Hhead & Hin1 & Hcat1 & Hpeer1).
  { rewrite Hcat, len_app, struct_pack_I_length. lia. }
  rewrite Hcat in Hhead, Hcat1. change (N.to_nat 4) with 4%nat in *.
  change (take 4 (struct_pack_I (len P) ++ P ++ extra)) with (struct_pack_I (len P)) in Hhead.
  change (drop 4 (struct_pack_I (len P) ++ P ++ extra)) with (P ++ extra) in Hcat1.
  destruct (receive_all_chunks (len P) chunks1 rest s1 Hin1)
    as (s2 & chunks2 & Hread & Hin2 & Hcat2 & Hpeer2).
  { rewrite Hcat1, len_app. lia. }
  rewrite Hcat1 in Hread, Hcat2. unfold len in Hread at 2, Hcat2.
  rewrite Nat2N.id in Hread, Hcat2.
  rewrite take_app_length in Hread. rewrite drop_app_length in Hcat2.
  exists s1, s2, chunks2.
  repeat split; auto using unpack_pack; try apply Hin2;
    apply (same_peer_trans _ _ _ Hpeer1 Hpeer2).
Qed.

(** X4. When the peer is gone by the time the acknowledgement is sent,
    the payload has been stored and shown all the same: the file and the
    display update stay, the failed [send] is printed, and the socket is
    closed. *)
Theorem stored_even_if_ack_fails
    (self : PhotoServer) (a : address) (w : world) (P : bytes)
    (chunks : list bytes) (rest : list recv_event) :
  nonempty P ->
  len P < 2 ^ 32 ->
  delivers (client w) chunks rest ->
  concat chunks = struct_pack_I (len P) ++ P ->
  storage_ready self w P ->
  peer_open (client w) = false ->
  exists w',
    _handle_client self a w = Ret tt w'
    /\ nodes (disk w') = <[save_path self w := File P]> (nodes (disk w))
    /\ tk_queue w' = tk_queue w ++ [mkCall P (save_path self w) a]
    /\ sent (client w') = sent (client w)
    /\ stdout w' = stdout w ++ [PrintImageSize (len P); PrintSaved (save_path self w);
                                PrintClientError a (OSError EPIPE)]
    /\ closed (client w') = true.
Proof.
  intros Hne Hsize Hin Hcat Hready Hpeer.
  destruct (transfer_arrives w P chunks rest Hsize Hin Hcat)
    as (s1 & s2 & Hhead & Hn & Hread & Hsame).
  pose proof (save_ready self P a _ (ready_after_reads self w P (len P) s1 s2 Hready)) as Hsave.
  rewrite (handle_payload _ _ _ _ _ _ _ _ _ Hhead Hn Hread Hne Hsave).
  destruct Hsame as (Hopen & Hsent & _).
  unfold acknowledge. simpl. rewrite Hopen, Hpeer.
  eexists. split; [reflexivity|]. simpl. rewrite Hsent, <- !app_assoc.
  repeat split. apply insert_insert_eq.
Qed.

Lemma stored_even_if_ack_fails_witness :
  exists w',
    _handle_client sample_server phone
      (set_client (accepted [Chunk (struct_pack_I 5 ++ hello)] false)
         (sample_world ready_disk next_day [])) = Ret tt w'
    /\ nodes (disk w') = <[partition ++ ["000001.jpg"%string] := File hello]> (nodes ready_disk)
    /\ sent (client w') = [].
Proof.
  destruct (stored_even_if_ack_fails sample_server phone
              (set_client (accepted [Chunk (struct_pack_I 5 ++ hello)] false)
                 (sample_world ready_disk next_day []))
              hello [struct_pack_I 5 ++ hello] [])
    as (w' & Hrun & Hdisk & _ & Hsent & _).
  - discriminate.
  - vm_compute. reflexivity.
  - split; [repeat constructor; discriminate | reflexivity].
  - reflexivity.
  - repeat split; vm_compute; first [reflexivity | discriminate].
  - reflexivity.
  - exists w'. auto.
Defined.

(** X5. One connection carries one frame: what the peer sends after the
    declared payload is neither read nor stored. The payload alone goes
    to the file, ["OK"] is sent, and the bytes that follow are still
    pending when the socket is closed. *)
Theorem one_frame_per_connection
    (self : PhotoServer) (a : address) (w : world) (P extra : bytes)
    (chunks : list bytes) (rest : list recv_event) :
  nonempty P ->
  len P < 2 ^ 32 ->
  delivers (client w) chunks rest ->
  concat chunks = struct_pack_I (len P) ++ P ++ extra ->
  storage_ready self w P ->
  peer_open (client w) = true ->
  exists w' chunks',
    _handle_client self a w = Ret tt w'
    /\ nodes (disk w') = <[save_path self w := File P]> (nodes (disk w))
    /\ sent (client w') = sent (client w) ++ OK
    /\ inbound (client w') = map Chunk chunks' ++ rest
    /\ concat chunks' = extra
    /\ closed (client w') = true.
Proof.
  intros Hne Hsize Hin Hcat Hready Hpeer.
  destruct (frame_arrives w P extra chunks rest Hsize Hin Hcat)
    as (s1 & s2 & chunks2 & Hhead & Hn & Hread & Hsame & [_ Hin2] & Hcat2).
  pose proof (save_ready self P a _ (ready_after_reads self w P (len P) s1 s2 Hready)) as Hsave.
  rewrite (handle_payload _ _ _ _ _ _ _ _ _ Hhead Hn Hread Hne Hsave).
  destruct Hsame as (Hopen & Hsent & _).
  unfold acknowledge. simpl. rewrite Hopen, Hpeer.
  eexists _, chunks2. split; [reflexivity|]. simpl. rewrite Hsent.
  repeat split; auto. apply insert_insert_eq.
Qed.

Lemma one_frame_per_connection_witness :
  exists w',
    _handle_client sample_server phone
      (sample_world ready_disk next_day [Chunk (struct_pack_I 2 ++ hello)]) = Ret tt w'
    /\ nodes (disk w')
       = <[partition ++ ["000001.jpg"%string] := File ["h"; "e"]%byte]> (nodes ready_disk)
    /\ exists chunks', inbound (client w') = map Chunk chunks' /\ concat chunks' = ["l"; "l"; "o"]%byte.
Proof.
  destruct (one_frame_per_connection sample_server phone
              (sample_world ready_disk next_day [Chunk (struct_pack_I 2 ++ hello)])
              ["h"; "e"]%byte ["l"; "l"; "o"]%byte [struct_pack_I 2 ++ hello] [])
    as (w' & chunks' & Hrun & Hdisk & _ & Hin & Hcat & _).
  - discriminate.
  - vm_compute. reflexivity.
  - split; [repeat constructor; discriminate | reflexivity].
  - reflexivity.
  - repeat split; vm_compute; first [reflexivity | discriminate].
  - reflexivity.
  - exists w'. split; [exact Hrun|]. split; [exact Hdisk|].
    exists chunks'. rewrite app_nil_r in Hin. auto.
Defined.

(** X6. Whatever arrives and whatever the state of the disk, a connection
    changes the file system at one path at most: the file named by the
    current second in the server's partition. *)
Theorem handler_touches_one_path (self : PhotoServer) (a : address) (w : world) :
  exists w',
    _handle_client self a w = Ret tt w'
    /\ forall q, q <> save_path self w -> nodes (disk w') !! q = nodes (disk w) !! q.
Proof.
  destruct (handler_outcome self a w) as (w' & lines & Hrun & _ & Helse & _). eauto.
Qed.

(** What goes back on a connection: ["OK"] when both reads go through
    and the peer still listens, nothing otherwise. *)
Lemma handler_reply (self : PhotoServer) (a : address) (w : world) :
  exists w',
    _handle_client self a w = Ret tt w'
    /\ ((exists d, frame_read (client w) d)
        /\ sent (client w')
           = (if peer_open (client w) then sent (client w) ++ OK else sent (client w))
        \/ ~ (exists d, frame_read (client w) d)
           /\ sent (client w') = sent (client w)).
Proof.
  pose proof (receive_all_same_peer 4 (client w)) as Hpeer1.
  destruct (_receive_all 4 (client w)) as [v s1|e s1|] eqn:Hhead; [| |contradiction].
  - destruct (truthy v) eqn:Hv.
    + apply not_truthy in Hv as (h & -> & Hh).
      destruct (struct_unpack_I h) as [e|n] eqn:Hsize.
      * rewrite (handle_raise_in_unpack _ _ _ _ _ _ Hhead Hh Hsize).
        eexists. split; [reflexivity|]. right. split; [|apply Hpeer1].
        intros (d & header & s1' & s2 & Hhead' & Hsize' & _).
        unfold frame_read in *. rewrite Hhead in Hhead'. congruence.
      * pose proof (receive_all_same_peer n s1) as Hpeer2.
        destruct (_receive_all n s1) as [v2 s2|e s2|] eqn:Hread; [| |contradiction].
        -- destruct (truthy v2) eqn:Hv2.
           ++ apply not_truthy in Hv2 as (d & -> & Hd).
              apply receive_all_exact_size in Hread as Hdn. subst n.
              destruct (save_returns self d a (set_client s2 (announced (len d) s1 w)))
                as (w3 & Hsave & Hclient).
              rewrite (handle_payload _ _ _ _ _ _ _ _ _ Hhead Hsize Hread Hd Hsave).
              pose proof (same_peer_trans _ _ _ Hpeer1 Hpeer2) as (Hopen & Hsent & _).
              eexists. split; [reflexivity|]. left.
              split; [exists d, h, s1, s2; auto|].
              cbn [client set_client] in Hclient.
              unfold acknowledge. rewrite Hclient, Hopen.
              destruct (peer_open (client w)); simpl; rewrite ?Hclient, Hsent; reflexivity.
           ++ rewrite (handle_no_payload _ _ _ _ _ _ _ _ Hhead Hsize Hread Hv2).
              eexists. split; [reflexivity|]. right.
              split; [|apply (same_peer_trans _ _ _ Hpeer1 Hpeer2)].
              intros (d & header & s1' & s2' & Hhead' & Hsize' & Hread' & Hd).
              assert (header = h /\ s1' = s1) as [-> ->] by (split; congruence).
              assert (n = len d) as -> by congruence.
              rewrite Hread in Hread'. injection Hread' as -> _.
              destruct d; [now elim Hd | discriminate].
        -- rewrite (handle_raise_in_payload _ _ _ _ _ _ _ _ Hhead Hsize Hread).
           eexists. split; [reflexivity|]. right.
           split; [|apply (same_peer_trans _ _ _ Hpeer1 Hpeer2)].
           intros (d & header & s1' & s2' & Hhead' & Hsize' & Hread' & Hd).
           assert (header = h /\ s1' = s1) as [-> ->] by (split; congruence).
           assert (n = len d) as -> by congruence.
           rewrite Hread in Hread'. discriminate.
    + rewrite (handle_no_header _ _ _ _ _ Hhead Hv).
      eexists. split; [reflexivity|]. right. split; [|apply Hpeer1].
      intros (d & header & s1' & s2' & Hhead' & Hsize' & _).
      assert (v = Some header) as -> by congruence.
      apply unpack_length in Hsize'.
      destruct header; [discriminate Hsize' | discriminate Hv].
  - rewrite (handle_raise_in_header _ _ _ _ _ Hhead).
    eexists. split; [reflexivity|]. right. split; [|apply Hpeer1].
    intros (d & header & s1' & s2' & Hhead' & _). congruence.
Qed.

(** On a connection that ends after its chunks, a read returns data only
    if that many bytes arrive, and then it returns the first of them. *)
Lemma receive_all_some (n : N) (chunks : list bytes) (rest : list recv_event)
    (s s' : socket) (d : bytes) :
  delivers s chunks rest ->
  ends rest ->
  _receive_all n s = Ret (Some d) s' ->
  n <= len (concat chunks)
  /\ d = take (N.to_nat n) (concat chunks)
  /\ exists chunks', delivers s' chunks' rest
                     /\ concat chunks' = drop (N.to_nat n) (concat chunks).
Proof.
  intros Hin Hend Hrun.
  destruct (N.le_gt_cases n (len (concat chunks))) as [Hle|Hgt].
  - destruct (receive_all_chunks n chunks rest s Hin Hle)
      as (s1 & chunks' & Hrun' & Hin' & Hcat & _).
    rewrite Hrun in Hrun'. injection Hrun' as -> ->.
    split; [exact Hle|]. split; [reflexivity|]. eauto.
  - exfalso. destruct Hend as [->|(e & rest' & ->)].
    + destruct (receive_all_closed_early n chunks s Hin Hgt) as (s1 & Hrun' & _).
      congruence.
    + destruct (receive_all_reset n chunks e rest' s Hin Hgt) as (s1 & Hrun' & _).
      congruence.
Qed.

(** The two reads go through exactly when the bytes that arrive begin
    with a header and the whole payload it declares. *)
Lemma frame_read_stream (w : world) (chunks : list bytes) (rest : list recv_event) :
  delivers (client w) chunks rest ->
  ends rest ->
  (exists d, frame_read (client w) d)
  <-> exists P extra,
        nonempty P /\ len P < 2 ^ 32
        /\ concat chunks = struct_pack_I (len P) ++ P ++ extra.
Proof.
  intros Hin Hend. split.
  - intros (d & header & s1 & s2 & Hhead & Hsize & Hread & Hd).
    destruct (receive_all_some 4 chunks rest _ _ _ Hin Hend Hhead)
      as (_ & -> & chunks1 & Hin1 & Hcat1).
    destruct (receive_all_some (len d) chunks1 rest _ _ _ Hin1 Hend Hread)
      as (_ & Hd' & _).
    apply unpack_length in Hsize as Hlen.
    destruct (take (N.to_nat 4) (concat chunks)) as [|b0 [|b1 [|b2 [|b3 [|b4 h]]]]] eqn:Htake;
      try (exfalso; unfold len in Hlen; simpl in Hlen; lia).
    destruct (struct_unpack_I_bound b0 b1 b2 b3) as (n & Hn & Hbound).
    apply pack_unpack in Hsize as Hpack.
    exists d, (drop (N.to_nat (len d)) (concat chunks1)).
    split; [exact Hd|]. split.
    + assert (n = len d) as <- by congruence. change (2 ^ 32) with 4294967296 in *. lia.
    + rewrite Hpack, <- Htake.
      transitivity (take (N.to_nat 4) (concat chunks) ++ concat chunks1).
      { rewrite Hcat1. symmetry. apply take_drop. }
      f_equal. rewrite <- (take_drop (N.to_nat (len d)) (concat chunks1)) at 1.
      now rewrite <- Hd'.
  - intros (P & extra & Hne & Hsize & Hcat).
    destruct (frame_arrives w P extra chunks rest Hsize Hin Hcat)
      as (s1 & s2 & chunks2 & Hhead & Hn & Hread & _).
    exists P, (struct_pack_I (len P)), s1, s2. auto.
Qed.

(** X7. The handler sends the two bytes ["OK"] or nothing at all, and it
    sends them exactly when a non-empty payload has arrived in full: on a
    connection whose peer still reads, ["OK"] goes back if and only if
    the bytes that arrive before the connection ends begin with a 4-byte
    header and all the bytes of the non-empty payload it declares. A
    payload cut short, or a header alone, is not acknowledged. *)
Theorem handler_sends_ok_or_nothing
    (self : PhotoServer) (a : address) (w : world)
    (chunks : list bytes) (rest : list recv_event) :
  delivers (client w) chunks rest ->
  ends rest ->
  exists w',
    _handle_client self a w = Ret tt w'
    /\ (sent (client w') = sent (client w)
        \/ sent (client w') = sent (client w) ++ OK)
    /\ (sent (client w') = sent (client w) ++ OK
        <-> peer_open (client w) = true
            /\ exists P extra,
                 nonempty P /\ len P < 2 ^ 32
                 /\ concat chunks = struct_pack_I (len P) ++ P ++ extra).
Proof.
  intros Hin Hend.
  pose proof (frame_read_stream w chunks rest Hin Hend) as Hstream.
  assert (forall l : bytes, l <> l ++ OK) as Hnot.
  { intros l H. apply (f_equal (@length _)) in H. rewrite length_app in H. simpl in H. lia. }
  destruct (handler_reply self a w) as (w' & Hrun & [[Hframe Hsent]|[Hno Hsent]]);
    exists w'; (split; [exact Hrun|]).
  - destruct (peer_open (client w)) eqn:Hpeer.
    + split; [now right|]. split; [intros _; split; [reflexivity | now apply Hstream]|].
      intros _. exact Hsent.
    + split; [now left|]. split; [|intros [H _]; discriminate].
      intros H. rewrite Hsent in H. now elim (Hnot _ H).
  - split; [now left|]. split.
    + intros H. rewrite Hsent in H. now elim (Hnot _ H).
    + intros [_ H]. apply Hstream in H. now elim Hno.
Qed.

Lemma handler_sends_ok_or_nothing_witness :
  (exists w',
      _handle_client sample_server phone
        (sample_world ready_disk next_day [Chunk (struct_pack_I 5); Chunk hello]) = Ret tt w'
      /\ sent (client w') = OK)
  /\ (exists w',
         _handle_client sample_server phone
           (sample_world ready_disk next_day
              [Chunk (struct_pack_I 5); Chunk ["h"; "e"; "l"]%byte]) = Ret tt w'
         /\ sent (client w') = []).
Proof.
  split.
  - destruct (handler_sends_ok_or_nothing sample_server phone
                (sample_world ready_disk next_day [Chunk (struct_pack_I 5); Chunk hello])
                [struct_pack_I 5; hello] [])
      as (w' & Hrun & _ & Hiff).
    + split; [repeat constructor; discriminate | reflexivity].
    + now left.
    + exists w'. split; [exact Hrun|]. apply Hiff.
      split; [reflexivity|]. exists hello, [].
      split; [discriminate|]. split; [vm_compute; reflexivity | reflexivity].
  - destruct (handler_sends_ok_or_nothing sample_server phone
                (sample_world ready_disk next_day
                   [Chunk (struct_pack_I 5); Chunk ["h"; "e"; "l"]%byte])
                [struct_pack_I 5; ["h"; "e"; "l"]%byte] [])
      as (w' & Hrun & [Hsent|Hsent] & Hiff).
    + split; [repeat constructor; discriminate | reflexivity].
    + now left.
    + exists w'. split; [exact Hrun | exact Hsent].
    + exfalso. apply Hiff in Hsent as (_ & P & extra & HP & _ & Hcat).
      unfold struct_pack_I in Hcat. cbn [concat app] in Hcat.
      injection Hcat as _ _ _ Hlow Hrest.
      destruct P as [|p0 [|p1 [|p2 [|p3 P]]]]; [now elim HP| | | |];
        try (vm_compute in Hlow; discriminate Hlow).
      simpl in Hrest. discriminate Hrest.
Defined.

(** X8. A display update is scheduled for the GUI thread at most once per
    connection, and only for a payload that is on the disk, with the
    path it was written to and the address it came from. *)
Theorem display_only_after_store (self : PhotoServer) (a : address) (w : world) :
  exists w',
    _handle_client self a w = Ret tt w'
    /\ (tk_queue w' = tk_queue w
        \/ exists d, nonempty d
                     /\ tk_queue w' = tk_queue w ++ [mkCall d (save_path self w) a]
                     /\ nodes (disk w') !! save_path self w = Some (File d)).
Proof.
  destruct (handler_outcome self a w) as (w' & lines & Hrun & _ & _ & Hcases).
  exists w'. split; [exact Hrun|].
  destruct Hcases as [(_ & _ & Hq & _)|(d & ack & Hd & Hstore & _)]; [now left|].
  destruct Hstore as [(Hfile & Hq & _)|(e & Hq & _)]; [right; eauto|now left].
Qed.

(** X9. [struct.unpack] cannot fail in the handler: it is only ever given
    the four bytes [_receive_all(sock, 4)] returned. Every error line the
    handler prints for a connection is for an [OSError]. *)
Theorem handler_errors_are_os_errors
    (self : PhotoServer) (a : address) (w : world) :
  exists w' lines,
    _handle_client self a w = Ret tt w'
    /\ stdout w' = stdout w ++ lines
    /\ forall a' e, In (PrintClientError a' e) lines -> is_OSError e = true.
Proof.
  destruct (handler_outcome self a w) as (w' & lines & Hrun & Hout & _ & Hcases).
  exists w', lines. split; [exact Hrun|]. split; [exact Hout|].
  intros a' e Hin.
  destruct Hcases as [(_ & _ & _ & Hlines)|(d & ack & _ & Hstore & Hack)].
  - destruct Hlines as [->|[(e0 & ->)|[(n & ->)|(n & e0 & ->)]]]; simpl in Hin;
      repeat (destruct Hin as [Hin|Hin]; [try discriminate; now injection Hin as _ <-|]);
      contradiction.
  - assert (ack = [] \/ ack = [PrintClientError a (OSError EPIPE)]) as Hack'
        by (destruct Hack as [(_ & -> & _)|(_ & -> & _)]; auto).
    destruct Hstore as [(_ & _ & ->)|(e0 & _ & ->)];
      destruct Hack' as [->| ->]; simpl in Hin;
      repeat (destruct Hin as [Hin|Hin]; [try discriminate; now injection Hin as _ <-|]);
      contradiction.
Qed.

(** ** More about the storage step *)

Lemma node_at_put_same (p : path) (n : node) (fs : filesystem) :
  p <> [] -> node_at (put_node p n fs) p = Some n.
Proof.
  intros Hp. unfold node_at, put_node. simpl.
  destruct p; [contradiction|]. apply lookup_insert_eq.
Qed.

Lemma node_at_put_other (p q : path) (n : node) (fs : filesystem) :
  p <> q -> node_at (put_node p n fs) q = node_at fs q.
Proof.
  intros Hp. unfold node_at, put_node. simpl.
  destruct q; [reflexivity|]. now apply lookup_insert_ne.
Qed.

Lemma save_path_not_data_dir (self : PhotoServer) (w : world) :
  save_path self w <> data_dir self.
Proof.
  unfold save_path, os_path_join. intros H.
  apply (f_equal (@length string)) in H. rewrite length_app in H. simpl in H. lia.
Qed.

Lemma node_at_use_space (k : N) (fs : filesystem) (p : path) :
  node_at (use_space k fs) p = node_at fs p.
Proof. reflexivity. Qed.

Lemma disk_saved (self : PhotoServer) (P : bytes) (a : address) (w : world) :
  disk (saved self P a w)
  = use_space (len P)
      (put_node (save_path self w) (File P) (put_node (save_path self w) (File []) (disk w))).
Proof. reflexivity. Qed.

Lemma ready_again (self : PhotoServer) (P1 P2 : bytes) (a : address) (w : world) :
  storage_ready self w P1 ->
  len P1 + len P2 <= free_space (disk w) ->
  storage_ready self (saved self P1 a w) P2.
Proof.
  intros (Hdir & Hfile & Hspace) Hboth.
  unfold storage_ready.
  change (save_path self (saved self P1 a w)) with (save_path self w).
  rewrite disk_saved. unfold path_isdir in *. rewrite !node_at_use_space.
  repeat split.
  - rewrite !node_at_put_other by apply save_path_not_data_dir. exact Hdir.
  - rewrite node_at_put_same by apply save_path_nonroot. reflexivity.
  - simpl. lia.
Qed.

Lemma ready_later (self : PhotoServer) (P1 P2 : bytes) (a : address) (w : world) (t' : datetime) :
  storage_ready self w P1 ->
  path_isdir (disk w) (save_path self (set_now t' w)) = false ->
  len P1 + len P2 <= free_space (disk w) ->
  storage_ready self (set_now t' (saved self P1 a w)) P2.
Proof.
  intros (Hdir & Hfile & Hspace) Hfile' Hboth.
  unfold storage_ready.
  change (save_path self (set_now t' (saved self P1 a w))) with (save_path self (set_now t' w)).
  change (disk (set_now t' (saved self P1 a w))) with (disk (saved self P1 a w)).
  rewrite disk_saved. unfold path_isdir in *. rewrite !node_at_use_space.
  repeat split.
  - rewrite !node_at_put_other by apply save_path_not_data_dir. exact Hdir.
  - destruct (decide (save_path self w = save_path self (set_now t' w))) as [Heq|Hne].
    + rewrite <- Heq. rewrite node_at_put_same by apply save_path_nonroot. reflexivity.
    + rewrite !node_at_put_other by exact Hne. exact Hfile'.
  - simpl. lia.
Qed.

(** X10. The file name has the time of day and nothing else, and the
    partition is fixed, so a payload saved at a time of day at which one
    was saved before (the same second, or the same time on a later day)
    takes the place of the earlier one: both are announced to the GUI
    under the same path, and the file holds the second. *)
Theorem same_time_overwrites
    (self : PhotoServer) (P1 P2 : bytes) (a1 a2 : address) (w : world) (t' : datetime) :
  storage_ready self w P1 ->
  len P1 + len P2 <= free_space (disk w) ->
  strftime_HMS t' = strftime_HMS (now w) ->
  exists w1 w2,
    _save_and_display_image self P1 a1 w = Ret tt w1
    /\ _save_and_display_image self P2 a2 (set_now t' w1) = Ret tt w2
    /\ nodes (disk w2) = <[save_path self w := File P2]> (nodes (disk w))
    /\ tk_queue w2 = tk_queue w ++ [mkCall P1 (save_path self w) a1;
                                    mkCall P2 (save_path self w) a2].
Proof.
  intros Hready Hspace Htime.
  assert (save_path self (set_now t' w) = save_path self w) as Hpath
    by (unfold save_path; simpl; now rewrite Htime).
  assert (storage_ready self (set_now t' (saved self P1 a1 w)) P2) as Hready2.
  { apply ready_later; auto. rewrite Hpath. apply Hready. }
  exists (saved self P1 a1 w), (saved self P2 a2 (set_now t' (saved self P1 a1 w))).
  split; [now apply save_ready|]. split; [now apply save_ready|].
  split.
  - rewrite !disk_saved.
    change (save_path self (set_now t' (saved self P1 a1 w)))
      with (save_path self (set_now t' w)).
    rewrite Hpath. simpl. now rewrite !insert_insert_eq.
  - unfold saved at 1.
    change (save_path self (set_now t' (saved self P1 a1 w)))
      with (save_path self (set_now t' w)).
    rewrite Hpath. simpl. now rewrite <- app_assoc.
Qed.

Lemma same_time_overwrites_witness :
  exists w1 w2,
    _save_and_display_image sample_server hello phone (sample_world ready_disk last_second [])
    = Ret tt w1
    /\ _save_and_display_image sample_server ["h"; "i"]%byte phone
         (set_now (mkDatetime 2025 1 1 23 59 59) w1) = Ret tt w2
    /\ nodes (disk w2)
       = <[partition ++ ["235959.jpg"%string] := File ["h"; "i"]%byte]> (nodes ready_disk).
Proof.
  destruct (same_time_overwrites sample_server hello ["h"; "i"]%byte phone phone
              (sample_world ready_disk last_second []) (mkDatetime 2025 1 1 23 59 59))
    as (w1 & w2 & H1 & H2 & Hdisk & _).
  - repeat split; vm_compute; first [reflexivity | discriminate].
  - vm_compute. discriminate.
  - reflexivity.
  - exists w1, w2. auto.
Defined.

Lemma digit_inj (m n : nat) : digit m = digit n -> (m mod 10 = n mod 10)%nat.
Proof.
  unfold digit. intros H. apply (f_equal nat_of_ascii) in H.
  pose proof (Nat.mod_upper_bound m 10). pose proof (Nat.mod_upper_bound n 10).
  rewrite !nat_ascii_embedding in H by lia. lia.
Qed.

Lemma two_digits_inj (m n : nat) :
  (m < 100)%nat -> (n < 100)%nat ->
  digit (m / 10) = digit (n / 10) -> digit m = digit n -> m = n.
Proof.
  intros Hm Hn Htens Hunits.
  apply digit_inj in Htens, Hunits.
  assert (m / 10 < 10)%nat by (apply Nat.Div0.div_lt_upper_bound; lia).
  assert (n / 10 < 10)%nat by (apply Nat.Div0.div_lt_upper_bound; lia).
  rewrite !Nat.mod_small in Htens by lia.
  pose proof (Nat.div_mod_eq m 10). pose proof (Nat.div_mod_eq n 10). lia.
Qed.

(** The file name tells the time of the day. *)
Lemma strftime_HMS_inj (t1 t2 : datetime) :
  valid_time t1 -> valid_time t2 ->
  strftime_HMS t1 = strftime_HMS t2 ->
  hour t1 = hour t2 /\ minute t1 = minute t2 /\ second t1 = second t2.
Proof.
  intros (Hh1 & Hm1 & Hs1) (Hh2 & Hm2 & Hs2) H.
  unfold strftime_HMS in H. cbn [zero_padded String.append] in H.
  injection H as H1 H2 H3 H4 H5 H6.
  repeat split; apply two_digits_inj; auto; lia.
Qed.

Lemma string_app_inv (s1 s2 x y : string) :
  String.length s1 = String.length s2 -> s1 +:+ x = s2 +:+ y -> s1 = s2.
Proof.
  revert s2. induction s1 as [|c s1 IH]; intros [|c' s2]; simpl; try discriminate; auto.
  intros Hlen H. injection Hlen as Hlen. injection H as -> H. f_equal. now apply IH.
Qed.

(** X11. Payloads saved at different times of the day go to different
    files, and both are kept. *)
Theorem different_times_both_kept
    (self : PhotoServer) (P1 P2 : bytes) (a1 a2 : address) (w : world) (t' : datetime) :
  valid_time (now w) ->
  valid_time t' ->
  (hour t', minute t', second t') <> (hour (now w), minute (now w), second (now w)) ->
  storage_ready self w P1 ->
  path_isdir (disk w) (save_path self (set_now t' w)) = false ->
  len P1 + len P2 <= free_space (disk w) ->
  exists w1 w2,
    _save_and_display_image self P1 a1 w = Ret tt w1
    /\ _save_and_display_image self P2 a2 (set_now t' w1) = Ret tt w2
    /\ save_path self w <> save_path self (set_now t' w)
    /\ nodes (disk w2) !! save_path self w = Some (File P1)
    /\ nodes (disk w2) !! save_path self (set_now t' w) = Some (File P2).
Proof.
  intros Hv Hv' Hdiff Hready Hfree Hspace.
  assert (save_path self w <> save_path self (set_now t' w)) as Hpath.
  { unfold save_path, os_path_join. cbn [now set_now]. intros H.
    apply app_inv_head in H. apply (inj (fun x => [x])) in H.
    apply string_app_inv in H; [|now rewrite !strftime_HMS_length].
    apply strftime_HMS_inj in H as (Hh & Hm & Hs); auto.
    apply Hdiff. now rewrite Hh, Hm, Hs. }
  pose proof (ready_later self P1 P2 a1 w t' Hready Hfree Hspace) as Hready2.
  exists (saved self P1 a1 w), (saved self P2 a2 (set_now t' (saved self P1 a1 w))).
  split; [now apply save_ready|]. split; [now apply save_ready|].
  split; [exact Hpath|].
  rewrite !disk_saved.
  change (save_path self (set_now t' (saved self P1 a1 w)))
    with (save_path self (set_now t' w)).
  simpl nodes. split.
  - rewrite !lookup_insert_ne by congruence. apply lookup_insert_eq.
  - apply lookup_insert_eq.
Qed.

Lemma different_times_both_kept_witness :
  exists w1 w2,
    _save_and_display_image sample_server hello phone (sample_world ready_disk last_second [])
    = Ret tt w1
    /\ _save_and_display_image sample_server ["h"; "i"]%byte phone (set_now next_day w1)
       = Ret tt w2
    /\ nodes (disk w2) !! (partition ++ ["235959.jpg"%string]) = Some (File hello)
    /\ nodes (disk w2) !! (partition ++ ["000001.jpg"%string]) = Some (File ["h"; "i"]%byte).
Proof.
  destruct (different_times_both_kept sample_server hello ["h"; "i"]%byte phone phone
              (sample_world ready_disk last_second []) next_day)
    as (w1 & w2 & H1 & H2 & _ & Hf1 & Hf2).
  - repeat split; simpl; lia.
  - repeat split; simpl; lia.
  - discriminate.
  - repeat split; vm_compute; first [reflexivity | discriminate].
  - vm_compute. reflexivity.
  - vm_compute. discriminate.
  - exists w1, w2. auto.
Defined.

(** ** More about [create_data_directory] *)

Lemma keeps_refl (fs : filesystem) : keeps fs fs.
Proof. intros q n H. exact H. Qed.

Lemma keeps_trans (fs1 fs2 fs3 : filesystem) : keeps fs1 fs2 -> keeps fs2 fs3 -> keeps fs1 fs3.
Proof. unfold keeps. eauto. Qed.

Lemma not_exists_absent (fs : filesystem) (p : path) :
  path_exists fs p = false -> p <> [] /\ nodes fs !! p = None.
Proof.
  unfold path_exists, node_at. destruct p as [|x p]; [discriminate|].
  destruct (nodes fs !! (x :: p)); [discriminate|]. split; [discriminate|reflexivity].
Qed.

Lemma mkdir_exist_ok_fresh (p : path) (fs : filesystem) :
  path_exists fs p = false ->
  path_isdir fs (os_path_dirname p) = true ->
  mkdir_exist_ok p true fs = Ret tt (put_node p Dir fs).
Proof.
  intros Hex Hparent. unfold mkdir_exist_ok, os_mkdir, check_parent. unfold_monad.
  rewrite Hex. unfold path_isdir in Hparent.
  destruct (node_at fs (os_path_dirname p)) as [[|c]|]; try discriminate. reflexivity.
Qed.

(** [mkdir], with [exist_ok], adds a directory or changes nothing. *)
Lemma mkdir_exist_ok_keeps (p : path) (fs : filesystem) :
  match mkdir_exist_ok p true fs with
  | Ret _ fs' => keeps fs fs' /\ path_isdir fs' p = true
  | Raise _ fs' => fs' = fs
  | OutOfFuel => False
  end.
Proof.
  unfold mkdir_exist_ok, os_mkdir, check_parent. unfold_monad.
  destruct (path_exists fs p) eqn:Hex; simpl.
  - destruct (path_isdir fs p) eqn:Hdir; simpl; [|reflexivity].
    split; [apply keeps_refl | exact Hdir].
  - apply not_exists_absent in Hex as Habsent. destruct Habsent as [Hroot Hnone].
    assert (path_isdir fs p = false) as Hdir
      by (unfold path_isdir, path_exists in *; now destruct (node_at fs p)).
    destruct (node_at fs (os_path_dirname p)) as [[|c]|]; simpl;
      rewrite ?Hdir; simpl; try reflexivity.
    split.
    + intros q n Hq. simpl. rewrite lookup_insert_ne; [exact Hq|congruence].
    + unfold path_isdir. now rewrite node_at_put_same.
Qed.

Lemma makedirs_rev_keeps (rname : list string) :
  forall fs : filesystem,
    match makedirs_rev rname true fs with
    | Ret _ fs' => keeps fs fs' /\ path_isdir fs' (rev rname) = true
    | Raise _ fs' => keeps fs fs'
    | OutOfFuel => False
    end.
Proof.
  induction rname as [|tail rhead IH]; intros fs.
  - simpl makedirs_rev. pose proof (mkdir_exist_ok_keeps [] fs) as H.
    destruct (mkdir_exist_ok [] true fs); auto. subst. apply keeps_refl.
  - cbn [makedirs_rev]. unfold_monad.
    assert (forall fs1, keeps fs fs1 ->
              match mkdir_exist_ok (rev (tail :: rhead)) true fs1 with
              | Ret _ fs' => keeps fs fs' /\ path_isdir fs' (rev (tail :: rhead)) = true
              | Raise _ fs' => keeps fs fs'
              | OutOfFuel => False
              end) as Hleaf.
    { intros fs1 H1. pose proof (mkdir_exist_ok_keeps (rev (tail :: rhead)) fs1) as H.
      destruct (mkdir_exist_ok _ true fs1) as [u fs'|e fs'|]; auto.
      - destruct H. split; eauto using keeps_trans.
      - now subst. }
    destruct (path_exists fs (rev rhead)); simpl.
    + apply Hleaf, keeps_refl.
    + specialize (IH fs).
      destruct (makedirs_rev rhead true fs) as [u fs1|e fs1|].
      * apply Hleaf, IH.
      * destruct (is_FileExistsError e); simpl; [apply Hleaf|]; exact IH.
      * exact IH.
Qed.

(** X12. [create_data_directory] never changes or removes what is on the
    disk: whether it returns or raises, every entry that was there is
    still there with the same contents; and when it returns, the path it
    has put in [self.data_dir] is a directory. *)
Theorem create_data_directory_keeps_entries (self : PhotoServer) (w : world) :
  match create_data_directory self w with
  | Ret self' w' =>
      keeps (disk w) (disk w')
      /\ data_dir self' = os_path_join (script_dir w) ["data"%string; strftime_Ymd (now w)]
      /\ path_isdir (disk w') (data_dir self') = true
  | Raise _ w' => keeps (disk w) (disk w')
  | OutOfFuel => False
  end.
Proof.
  unfold create_data_directory, on_disk, os_makedirs. unfold_monad. simpl data_dir.
  pose proof (makedirs_rev_keeps
                (rev (os_path_join (script_dir w) ["data"%string; strftime_Ymd (now w)]))
                (disk w)) as H.
  rewrite rev_involutive in H.
  destruct (makedirs_rev _ true (disk w)) as [u fs'|e fs'|]; simpl; auto.
  destruct H as [Hkeeps Hdir]. auto.
Qed.

Lemma entry_parent_exists (fs : filesystem) (p : path) (x : string) (n : node) :
  well_formed fs -> node_at fs (p ++ [x]) = Some n -> path_exists fs p = true.
Proof.
  intros Hwf Hn.
  assert (path_isdir fs (os_path_dirname (p ++ [x])) = true) as Hparent.
  { unfold node_at in Hn. destruct (p ++ [x]) as [|y q] eqn:Hp; [now destruct p|].
    rewrite <- Hp in *. apply (Hwf _ n Hn). now destruct p. }
  unfold os_path_dirname in Hparent. rewrite removelast_last in Hparent.
  unfold path_exists, path_isdir in *. now destruct (node_at fs p).
Qed.

Lemma rev_partition (base : path) (today : string) :
  rev (os_path_join base ["data"%string; today]) = today :: "data"%string :: rev base.
Proof. unfold os_path_join. rewrite rev_app_distr. reflexivity. Qed.

(** X13. [exist_ok=True] forgives a directory, not a file: when a regular
    file stands where the partition of the day should be,
    [create_data_directory] raises [FileExistsError] and the disk is as
    it was, so the server object is not built. *)
Theorem partition_is_a_file_raises (self : PhotoServer) (w : world) (content : bytes) :
  well_formed (disk w) ->
  node_at (disk w) (os_path_join (script_dir w) ["data"%string; strftime_Ymd (now w)])
  = Some (File content) ->
  create_data_directory self w = Raise (OSError EEXIST) w
  /\ __init__ (host self) (port self) w = Raise (OSError EEXIST) w.
Proof.
  intros Hwf Hfile.
  assert (forall self0, create_data_directory self0 w = Raise (OSError EEXIST) w) as Hraise.
  { intros self0. unfold create_data_directory, on_disk, os_makedirs. unfold_monad. simpl data_dir.
    rewrite rev_partition. cbn [makedirs_rev]. unfold_monad.
    change (rev ("data"%string :: rev (script_dir w)))
      with (rev (rev (script_dir w)) ++ ["data"%string]).
    change (rev (strftime_Ymd (now w) :: "data"%string :: rev (script_dir w)))
      with ((rev (rev (script_dir w)) ++ ["data"%string]) ++ [strftime_Ymd (now w)]).
    rewrite rev_involutive.
    unfold os_path_join in Hfile.
    change ["data"%string; strftime_Ymd (now w)]
      with (["data"%string] ++ [strftime_Ymd (now w)]) in Hfile.
    rewrite app_assoc in Hfile.
    rewrite (entry_parent_exists _ _ _ _ Hwf Hfile). simpl.
    unfold mkdir_exist_ok, os_mkdir. unfold_monad.
    unfold path_exists, path_isdir. rewrite Hfile. simpl. rewrite Hfile. simpl.
    now destruct w. }
  split; [apply Hraise|]. unfold __init__. apply Hraise.
Qed.

Lemma partition_is_a_file_raises_witness :
  __init__ "0.0.0.0" 5001
    (sample_world (put_node partition (File hello)
                     (put_node (install_dir ++ ["data"%string]) Dir bare_disk))
       last_second [])
  = Raise (OSError EEXIST)
      (sample_world (put_node partition (File hello)
                       (put_node (install_dir ++ ["data"%string]) Dir bare_disk))
         last_second []).
Proof.
  refine (proj2 (partition_is_a_file_raises sample_server
                   (sample_world (put_node partition (File hello)
                                    (put_node (install_dir ++ ["data"%string]) Dir bare_disk))
                      last_second []) hello _ _)).
  - intros p n Hp Hroot. simpl in Hp.
    repeat (apply lookup_insert_Some in Hp as [[<- _]|[_ Hp]]; [vm_compute; reflexivity|]).
    now rewrite lookup_empty in Hp.
  - vm_compute. reflexivity.
Defined.

Lemma isdir_lookup (fs : filesystem) (p : path) :
  p <> [] -> path_isdir fs p = true -> nodes fs !! p = Some Dir.
Proof.
  intros Hp. unfold path_isdir, node_at. destruct p as [|x q]; [contradiction|].
  destruct (nodes fs !! (x :: q)) as [[|c]|]; try discriminate. reflexivity.
Qed.

(** X14. On a start where the day's partition is not there yet,
    [create_data_directory] makes it, and [data] above it when that is
    missing too, inside the directory of the script; nothing else on the
    disk changes. *)
Theorem first_start_makes_partition (self : PhotoServer) (w : world) :
  path_isdir (disk w) (script_dir w) = true ->
  path_exists (disk w) (script_dir w ++ ["data"%string]) = false
  \/ path_isdir (disk w) (script_dir w ++ ["data"%string]) = true ->
  path_exists (disk w) (os_path_join (script_dir w) ["data"%string; strftime_Ymd (now w)])
  = false ->
  exists w',
    create_data_directory self w
    = Ret (set_data_dir (os_path_join (script_dir w) ["data"%string; strftime_Ymd (now w)]) self) w'
    /\ nodes (disk w')
       = <[os_path_join (script_dir w) ["data"%string; strftime_Ymd (now w)] := Dir]>
           (<[script_dir w ++ ["data"%string] := Dir]> (nodes (disk w))).
Proof.
  intros Hbase Hdata Hnew.
  unfold create_data_directory, on_disk, os_makedirs. unfold_monad. simpl data_dir.
  rewrite rev_partition. cbn [makedirs_rev]. unfold_monad.
  change (rev ("data"%string :: rev (script_dir w)))
    with (rev (rev (script_dir w)) ++ ["data"%string]).
  change (rev (strftime_Ymd (now w) :: "data"%string :: rev (script_dir w)))
    with ((rev (rev (script_dir w)) ++ ["data"%string]) ++ [strftime_Ymd (now w)]).
  rewrite rev_involutive.
  unfold os_path_join in *.
  change ["data"%string; strftime_Ymd (now w)]
    with (["data"%string] ++ [strftime_Ymd (now w)]) in *.
  rewrite app_assoc in *.
  set (data := script_dir w ++ ["data"%string]) in *.
  set (part := data ++ [strftime_Ymd (now w)]) in *.
  assert (os_path_dirname part = data) as Hpd by apply removelast_last.
  assert (os_path_dirname data = script_dir w) as Hdd by apply removelast_last.
  assert (data <> part) as Hne.
  { unfold part. intros H. apply (f_equal (@length string)) in H.
    rewrite length_app in H. simpl in H. lia. }
  destruct (path_exists (disk w) data) eqn:Hex; simpl.
  - destruct Hdata as [Hdata|Hdata]; [discriminate|].
    rewrite mkdir_exist_ok_fresh; [|exact Hnew|now rewrite Hpd].
    eexists. split; [reflexivity|]. simpl. f_equal.
    symmetry. apply insert_id. apply isdir_lookup; [|exact Hdata].
    unfold data. now destruct (script_dir w).
  - assert (path_exists (disk w) (script_dir w) = true) as Hbase'
      by (unfold path_exists, path_isdir in *; now destruct (node_at (disk w) (script_dir w))).
    rewrite Hbase'. simpl.
    rewrite (mkdir_exist_ok_fresh data) by (try rewrite Hdd; assumption). simpl.
    rewrite mkdir_exist_ok_fresh.
    + eexists. split; reflexivity.
    + unfold path_exists in *. rewrite node_at_put_other by exact Hne. exact Hnew.
    + rewrite Hpd. unfold path_isdir. rewrite node_at_put_same; [reflexivity|].
      unfold data. now destruct (script_dir w).
Qed.

Lemma first_start_makes_partition_witness :
  exists w',
    create_data_directory sample_server (sample_world bare_disk last_second [])
    = Ret sample_server w'
    /\ nodes (disk w') = nodes ready_disk.
Proof.
  destruct (first_start_makes_partition sample_server (sample_world bare_disk last_second []))
    as (w' & Hrun & Hdisk).
  - vm_compute. reflexivity.
  - left. vm_compute. reflexivity.
  - vm_compute. reflexivity.
  - exists w'. split; [exact Hrun | exact Hdisk].
Defined.

(** ** More about the accept loop *)

Lemma wired_fresh (p : PhotoServer) : wired (fresh_system p).
Proof.
  split; [split; reflexivity|]. split.
  - intros [H|[H|H]]; discriminate.
  - discriminate.
Qed.

(** What a step of the server thread does, by where the thread stands. *)
Lemma server_step_cases (o : outcome) (s : system) :
  let s' := step (ServerRuns o) s in
  main_thread s' = main_thread s
  /\ running (self s') = running (self s)
  /\ match server_thread s with
     | NoThread => s' = s
     | Setup =>
         handlers s' = handlers s
         /\ (server_thread s' = Returned
             /\ self s' = set_server_socket
                            (Some (mkListener ("0.0.0.0"%string, 0) 0 true false)) (self s)
             /\ (exists e, o = Fails e /\ console s' = console s ++ [ErroCritico (OSError e)])
             \/ server_thread s' = LoopTest
                /\ self s' = set_server_socket
                               (Some (mkListener (host (self s), port (self s)) 5 true false))
                               (self s)
                /\ (forall e, o <> Fails e))
     | LoopTest =>
         handlers s' = handlers s /\ self s' = self s
         /\ server_thread s' = (if running (self s) then InAccept else Returned)
     | InAccept =>
         match server_socket (self s) with
         | None => server_thread s' = Returned /\ handlers s' = handlers s /\ self s' = self s
         | Some l =>
             if listener_closed l
             then server_thread s' = Returned /\ handlers s' = handlers s /\ self s' = self s
             else accept_outcome o s s'
         end
     | Blocked =>
         match server_socket (self s) with
         | None => server_thread s' = Returned /\ handlers s' = handlers s /\ self s' = self s
         | Some l => accept_outcome o s s'
         end
     | Returned => s' = s
     | Crashed e => s' = s
     end.
Proof.
  run_system. destruct s as [p pc mpc hs out]. unfold accept_outcome. simpl.
  destruct pc; simpl; try (repeat split; fail).
  - destruct o; simpl; repeat split;
      first [right; repeat split; discriminate | left; repeat split; eauto].
  - destruct (running p) eqn:Hr; simpl; rewrite ?Hr; repeat split.
  - destruct (server_socket p) as [l|] eqn:Hl; simpl; rewrite ?Hl; [|repeat split].
    destruct (listener_closed l) eqn:Hc; simpl; rewrite ?Hc.
    + destruct (running p) eqn:Hr; simpl; rewrite ?Hr; repeat split.
    + destruct o; simpl; try (destruct (running p) eqn:Hr; simpl; rewrite ?Hr);
        repeat split.
  - destruct (server_socket p) as [l|] eqn:Hl; simpl; rewrite ?Hl; [|repeat split].
    destruct o; simpl; try (destruct (running p) eqn:Hr; simpl; rewrite ?Hr);
      repeat split.
Qed.

(** Where a step of the server thread can lead, and what is then known
    of the socket. *)
Lemma server_step_next (o : outcome) (s : system) :
  (exists l, server_socket (self s) = Some l) ->
  server_thread s = InAccept \/ server_thread s = Blocked ->
  let s' := step (ServerRuns o) s in
  self s' = self s
  /\ (server_thread s' = Returned
      \/ server_thread s' = LoopTest
      \/ server_thread s' = Blocked).
Proof.
  intros (l & Hl) Hpc.
  pose proof (server_step_cases o s) as (_ & _ & Hcases). cbv zeta in *.
  rewrite Hl in Hcases.
  assert (accept_outcome o s (step (ServerRuns o) s)
          \/ server_thread (step (ServerRuns o) s) = Returned
             /\ self (step (ServerRuns o) s) = self s) as [(Hself & Hacc)|[Hret Hself]].
  { destruct Hpc as [Hpc|Hpc]; rewrite Hpc in Hcases.
    - destruct (listener_closed l); [right; split; apply Hcases | left; exact Hcases].
    - left. exact Hcases. }
  - split; [exact Hself|].
    destruct o; [right; left; apply Hacc | left; apply Hacc | right; right].
    now rewrite Hacc.
  - split; [exact Hself | left; exact Hret].
Qed.

(** What a step of the main thread does. *)
Lemma main_step_cases (ev : event) (s : system) :
  (forall o, ev <> ServerRuns o) ->
  let s' := step ev s in
  handlers s' = handlers s
  /\ (s' = s
      \/ ev = RunCalled /\ main_thread s = BeforeStart /\ main_thread s' = Mainloop
         /\ server_thread s' = Setup /\ server_socket (self s') = server_socket (self s)
      \/ ev = StopPressed /\ main_thread s = Mainloop /\ main_thread s' = Stopping
         /\ server_thread s' = server_thread s
         /\ server_socket (self s') = server_socket (self s)
      \/ ev = StopGoesOn /\ main_thread s = Stopping /\ main_thread s' = Finished
         /\ server_thread s' = server_thread s
         /\ server_socket (self s') = close_listener <$> server_socket (self s)).
Proof.
  intros Hev. destruct s as [p pc mpc hs out].
  destruct ev as [| | |o]; [| | |now elim (Hev o)];
    destruct mpc; simpl; try (split; [reflexivity|left; reflexivity]).
  - split; [reflexivity|]. right. left. repeat split.
  - split; [reflexivity|]. right. right. left. repeat split.
  - run_system. simpl. destruct (server_socket p) as [l|] eqn:Hl; simpl; rewrite ?Hl;
      (split; [reflexivity|]); right; right; right; repeat split.
Qed.

(** Once the main thread has left [stop_server], its events change nothing. *)
Lemma main_step_finished (ev : event) (s : system) :
  (forall o, ev <> ServerRuns o) -> main_thread s = Finished -> step ev s = s.
Proof.
  intros Hev Hm.
  destruct (main_step_cases ev s Hev) as (_ & [H|[(_ & H & _)|[(_ & H & _)|(_ & H & _)]]]);
    first [exact H | congruence].
Qed.

Lemma wired_step (ev : event) (s : system) :
  in_step s -> wired s -> wired (step ev s).
Proof.
  intros [Hflag _] (Hstart & Hsock & Hclosed).
  destruct ev as [| | |o].
  - destruct s as [p pc mpc hs out]. unfold wired. simpl in *.
    destruct mpc; simpl; auto.
    repeat split; try discriminate. intros [H|[H|H]]; discriminate.
  - destruct s as [p pc mpc hs out]. unfold wired. simpl in *.
    destruct mpc; simpl; auto.
    split; [|split; [exact Hsock|discriminate]].
    split; [discriminate|]. intros H. apply Hstart in H. discriminate.
  - destruct s as [p pc mpc hs out]. unfold wired. simpl in *.
    destruct mpc; simpl; auto.
    run_system. simpl.
    destruct (server_socket p) as [l|] eqn:Hl; simpl; rewrite ?Hl.
    + split; [split; [discriminate|intros H; apply Hstart in H; discriminate]|].
      split; eauto.
    + split; [split; [discriminate|intros H; apply Hstart in H; discriminate]|].
      split; [exact Hsock|]. intros _ H.
      destruct (Hsock (or_intror (or_introl H))) as (l & Hl'). discriminate.
  - pose proof (server_step_cases o s) as (Hm & _ & Hcases). cbv zeta in *.
    unfold wired. rewrite Hm.
    destruct (server_thread s) eqn:Hpc; try (rewrite Hcases, ?Hpc; auto; fail).
    + destruct Hcases as (_ & [(-> & -> & _)|(-> & -> & _)]).
      * split; [split; [intros H; apply Hstart in H; discriminate|discriminate]|].
        split; [intros [H|[H|H]]; discriminate|discriminate].
      * split; [split; [intros H; apply Hstart in H; discriminate|discriminate]|].
        split; [simpl; eauto|discriminate].
    + destruct Hcases as (_ & -> & ->).
      split; [split; [intros H; apply Hstart in H; discriminate|
                      destruct (running (self s)); discriminate]|].
      split; [intros _; apply Hsock; auto|].
      intros Hfin. rewrite Hfin in Hflag. rewrite Hflag. discriminate.
    + destruct (server_step_next o s) as (-> & Hnext);
        [apply Hsock; auto | auto |].
      split; [split; [intros H; apply Hstart in H; discriminate|
                      destruct Hnext as [->|[->| ->]]; discriminate]|].
      split; [intros _; apply Hsock; auto|].
      intros _ H. destruct Hnext as [Hn|[Hn|Hn]]; rewrite Hn in H; discriminate.
    + destruct (server_step_next o s) as (-> & Hnext);
        [apply Hsock; auto | auto |].
      split; [split; [intros H; apply Hstart in H; discriminate|
                      destruct Hnext as [->|[->| ->]]; discriminate]|].
      split; [intros _; apply Hsock; auto|].
      intros _ H. destruct Hnext as [Hn|[Hn|Hn]]; rewrite Hn in H; discriminate.
Qed.

Lemma wired_run (evs : list event) (s : system) :
  in_step s -> wired s -> wired (run_events evs s) /\ in_step (run_events evs s).
Proof.
  revert s. induction evs as [|ev evs IH]; intros s Hs Hw; [now split|].
  simpl. apply IH; [now apply step_main_thread | now apply wired_step].
Qed.

Lemma step_handlers (ev : event) (s : system) :
  handlers (step ev s) = handlers s
  \/ exists c a, ev = ServerRuns (Connects c a)
                 /\ handlers (step ev s) = handlers s ++ [(c, a)].
Proof.
  destruct ev as [| | |o];
    try (left; apply (main_step_cases _ s); discriminate).
  pose proof (server_step_cases o s) as (_ & _ & Hcases). cbv zeta in Hcases.
  assert (forall s', accept_outcome o s s' ->
            handlers s' = handlers s
            \/ exists c a, ServerRuns o = ServerRuns (Connects c a)
                           /\ handlers s' = handlers s ++ [(c, a)]) as Hacc.
  { intros s' (_ & H). destruct o as [c a|e|]; [right|left|left]; try apply H.
    - exists c, a. split; [reflexivity | apply H].
    - now rewrite H. }
  destruct (server_thread s); try (left; now rewrite Hcases); try (left; apply Hcases).
  - destruct (server_socket (self s)) as [l|]; [|left; apply Hcases].
    destruct (listener_closed l); [left; apply Hcases|]. now apply Hacc.
  - destruct (server_socket (self s)) as [l|]; [|left; apply Hcases]. now apply Hacc.
Qed.

(** One arrival served: the loop test, the call, the wait, the connection. *)
Lemma serve_one (n : nat) (c : socket) (a : address) (l : listener) (s : system) :
  running (self s) = true ->
  server_thread s = LoopTest ->
  server_socket (self s) = Some l ->
  listener_closed l = false ->
  let s' := run_events (ServerRuns Nothing :: repeat (ServerRuns Nothing) n
                        ++ [ServerRuns (Connects c a)]) s in
  s' = add_message (Conectado a) (add_handler (c, a) s).
Proof.
  intros Hflag Hpc Hl Hc.
  assert (step (ServerRuns Nothing) s = set_server_thread InAccept s) as Htest.
  { run_system. rewrite Hpc. simpl. rewrite Hflag. reflexivity. }
  assert (forall pc, pc = InAccept \/ pc = Blocked ->
            step (ServerRuns Nothing) (set_server_thread pc s)
            = set_server_thread Blocked s) as Hwait.
  { intros pc [-> | ->]; run_system; simpl; rewrite Hl; simpl; rewrite ?Hc; reflexivity. }
  assert (forall pc, pc = InAccept \/ pc = Blocked ->
            step (ServerRuns (Connects c a)) (set_server_thread pc s)
            = add_message (Conectado a) (add_handler (c, a) s)) as Htake.
  { intros pc [-> | ->]; run_system; simpl; rewrite Hl; simpl; rewrite ?Hc; simpl;
      destruct s; simpl in *; subst; reflexivity. }
  cbv zeta. unfold run_events. cbn [fold_left]. rewrite Htest.
  destruct n as [|n]; cbn [repeat app fold_left].
  - apply Htake. auto.
  - rewrite Hwait by auto.
    induction n as [|n IH]; cbn [repeat app fold_left].
    + apply Htake. auto.
    + rewrite Hwait by auto. exact IH.
Qed.

Lemma serve_all (arrivals : list (nat * (socket * address))) (l : listener) :
  forall s : system,
    running (self s) = true ->
    server_thread s = LoopTest ->
    server_socket (self s) = Some l ->
    listener_closed l = false ->
    let s' := run_events (serve arrivals) s in
    handlers s' = handlers s ++ map snd arrivals
    /\ console s' = console s ++ map (fun x => Conectado (snd (snd x))) arrivals
    /\ server_thread s' = LoopTest
    /\ self s' = self s.
Proof.
  induction arrivals as [|[n [c a]] arrivals IH]; intros s Hflag Hpc Hl Hc.
  - simpl. rewrite !app_nil_r. auto.
  - cbv zeta. change (serve ((n, (c, a)) :: arrivals))
      with ((ServerRuns Nothing :: repeat (ServerRuns Nothing) n
             ++ [ServerRuns (Connects c a)]) ++ serve arrivals).
    rewrite run_events_app.
    rewrite (serve_one n c a l s Hflag Hpc Hl Hc).
    destruct (IH (add_message (Conectado a) (add_handler (c, a) s)) Hflag Hpc Hl Hc)
      as (Hh & Hout & Hpc' & Hself).
    rewrite Hh, Hout, Hpc', Hself. simpl. rewrite <- !app_assoc. auto.
Qed.

(** X15. Every handler thread is started for a connection that [accept]
    returned, in the order they came: under every schedule the list of
    handlers only grows, by connections the schedule offers. And the
    loop misses none: a running server whose thread is at the loop test,
    on an open socket, starts exactly one handler for each connection
    that arrives, however long it waits for it, prints one
    "Cliente conectado" for each, and is back at the loop test. *)
Theorem handlers_follow_connections
    (evs : list event) (arrivals : list (nat * (socket * address)))
    (l : listener) (s : system) :
  running (self s) = true ->
  server_thread s = LoopTest ->
  server_socket (self s) = Some l ->
  listener_closed l = false ->
  (exists new,
      handlers (run_events evs s) = handlers s ++ new
      /\ sublist new (connections evs))
  /\ handlers (run_events (serve arrivals) s) = handlers s ++ map snd arrivals
  /\ console (run_events (serve arrivals) s)
     = console s ++ map (fun x => Conectado (snd (snd x))) arrivals
  /\ server_thread (run_events (serve arrivals) s) = LoopTest.
Proof.
  intros Hflag Hpc Hl Hc. split.
  - clear. revert s. induction evs as [|ev evs IH]; intros s.
    + exists []. split; [now rewrite app_nil_r | constructor].
    + simpl run_events. fold (run_events evs (step ev s)).
      destruct (IH (step ev s)) as (new & Hrun & Hsub).
      destruct (step_handlers ev s) as [Hsame|(c & a & -> & Hmore)].
      * exists new. rewrite Hrun, Hsame. split; [reflexivity|].
        destruct ev as [| | |[c a|e|]]; simpl; auto. now apply sublist_cons.
      * exists ((c, a) :: new). rewrite Hrun, Hmore, <- app_assoc.
        split; [reflexivity|]. simpl. now apply sublist_skip.
  - destruct (serve_all arrivals l s Hflag Hpc Hl Hc) as (H1 & H2 & H3 & _). auto.
Qed.

Lemma handlers_follow_connections_witness :
  handlers (run_events (serve [(0%nat, (accepted [] true, phone));
                               (2%nat, (accepted [Chunk hello] true, phone))])
              (run_events [RunCalled; ServerRuns Nothing] (fresh_system sample_server)))
  = [(accepted [] true, phone); (accepted [Chunk hello] true, phone)].
Proof.
  refine (proj1 (proj2
            (handlers_follow_connections []
               [(0%nat, (accepted [] true, phone));
                (2%nat, (accepted [Chunk hello] true, phone))]
               (mkListener ("0.0.0.0"%string, 5001) 5 true false)
               (run_events [RunCalled; ServerRuns Nothing] (fresh_system sample_server))
               _ _ _ _)));
    vm_compute; reflexivity.
Defined.

(** Once [stop_server] is through and [_run_server] has returned,
    nothing moves any more. *)
Lemma frozen (more : list event) (s : system) :
  main_thread s = Finished -> server_thread s = Returned -> run_events more s = s.
Proof.
  intros Hm Hpc. induction more as [|ev more IH]; [reflexivity|].
  simpl. assert (step ev s = s) as ->; [|exact IH].
  destruct ev as [| | |o].
  1-3: apply main_step_finished; [discriminate | exact Hm].
  pose proof (server_step_cases o s) as (_ & _ & Hcases). cbv zeta in Hcases.
  now rewrite Hpc in Hcases.
Qed.

(** Once [stop_server] is through, a server thread that does not wait in
    [accept] hands over no connection, and does not come to wait. *)
Lemma no_accept_when_finished (more : list event) :
  forall s : system,
    in_step s -> wired s -> main_thread s = Finished ->
    server_thread s <> Blocked ->
    handlers (run_events more s) = handlers s.
Proof.
  induction more as [|ev more IH]; intros s Hs Hw Hm Hpc; [reflexivity|].
  simpl. fold (run_events more (step ev s)).
  assert (main_thread (step ev s) = Finished /\ handlers (step ev s) = handlers s
          /\ server_thread (step ev s) <> Blocked)
    as (Hm' & Hh & Hpc').
  { destruct ev as [| | |o].
    1-3: rewrite main_step_finished; [auto | discriminate | exact Hm].
    pose proof (server_step_cases o s) as (Hm' & Hrun & Hcases). cbv zeta in *.
    split; [congruence|].
    destruct Hw as (_ & Hsock & Hclosed).
    destruct Hs as [Hflag _]. rewrite Hm in Hflag.
    destruct (server_thread s) eqn:Hpc0;
      try (rewrite Hcases, Hpc0; split; [reflexivity|discriminate]);
      try (now elim Hpc).
    - destruct Hcases as (Hh & [(-> & _)|(-> & _)]); split; auto; discriminate.
    - destruct Hcases as (Hh & _ & ->). rewrite Hflag. split; auto; discriminate.
    - destruct (Hclosed Hm eq_refl) as (l & Hl & Hc).
      rewrite Hl, Hc in Hcases. destruct Hcases as (-> & Hh & _).
      split; auto; discriminate. }
  rewrite <- Hh. apply IH; auto.
  - now apply step_main_thread.
  - now apply wired_step.
Qed.

(** Once [stop_server] is through, a server thread that waits in
    [accept] is ended by the first thing the network does: a connection,
    which it hands over, or a failure. *)
Lemma blocked_when_finished (more : list event) :
  forall s : system,
    in_step s -> wired s -> main_thread s = Finished ->
    server_thread s = Blocked ->
    handlers (run_events more s)
    = handlers s ++ match first_outcome more with
                    | Some (Connects c a) => [(c, a)]
                    | _ => []
                    end.
Proof.
  induction more as [|ev more IH]; intros s Hs Hw Hm Hpc; [simpl; now rewrite app_nil_r|].
  simpl run_events. fold (run_events more (step ev s)).
  destruct ev as [| | |o].
  1-3: rewrite main_step_finished; [now apply IH | discriminate | exact Hm].
  pose proof (server_step_cases o s) as (Hm' & _ & Hcases). cbv zeta in *.
  destruct (proj1 (proj2 Hw)) as (l & Hl); [auto|].
  rewrite Hpc, Hl in Hcases. destruct Hcases as (Hself & Hcases).
  assert (in_step (step (ServerRuns o) s)) as Hs' by now apply step_main_thread.
  assert (wired (step (ServerRuns o) s)) as Hw' by now apply wired_step.
  destruct o as [c a|e|]; simpl first_outcome.
  - destruct Hcases as (Hpc' & Hh & _).
    rewrite no_accept_when_finished; auto; congruence.
  - destruct Hcases as (Hpc' & Hh & _).
    rewrite no_accept_when_finished; auto; try congruence. now rewrite Hh, app_nil_r.
  - assert (step (ServerRuns Nothing) s = s) as ->; [|now apply IH].
    rewrite Hcases. destruct s; simpl in *. now subst.
Qed.

(** X16. Closing the listening socket does not end a call of [accept]
    that already waits. Once [stop_server] has returned, a server thread
    that was not waiting in [accept] hands over no connection any more,
    whatever arrives. A thread that was waiting is ended by the first
    thing the network does: if that is a connection, the thread hands it
    to a handler, after [stop_server], and hands over nothing after that;
    if it is a failure, or if nothing happens, no handler is started. *)
Theorem at_most_one_accept_after_stop (p : PhotoServer) (evs more : list event) :
  let s := run_events evs (fresh_system p) in
  main_thread s = Finished ->
  handlers (run_events (evs ++ more) (fresh_system p))
  = handlers s ++ match server_thread s, first_outcome more with
                  | Blocked, Some (Connects c a) => [(c, a)]
                  | _, _ => []
                  end.
Proof.
  intros s Hm. rewrite run_events_app. fold s.
  destruct (wired_run evs _ (in_step_fresh p) (wired_fresh p)) as [Hw Hs]. fold s in Hw, Hs.
  destruct (server_thread s) eqn:Hpc;
    try (rewrite no_accept_when_finished, ?app_nil_r; auto; congruence).
  now apply blocked_when_finished.
Qed.

Lemma at_most_one_accept_after_stop_witness :
  handlers (run_events (stop_while_blocked
                          ++ [ServerRuns Nothing;
                              ServerRuns (Connects (accepted [] true) phone);
                              ServerRuns (Connects (accepted [Chunk hello] true) phone)])
              (fresh_system sample_server))
  = [(accepted [] true, phone)]
  /\ handlers (run_events (stop_at_accept
                             ++ [ServerRuns (Connects (accepted [] true) phone);
                                 ServerRuns (Connects (accepted [] true) phone)])
                 (fresh_system sample_server))
     = [].
Proof.
  split.
  - apply (at_most_one_accept_after_stop sample_server stop_while_blocked
             [ServerRuns Nothing;
              ServerRuns (Connects (accepted [] true) phone);
              ServerRuns (Connects (accepted [Chunk hello] true) phone)]).
    vm_compute. reflexivity.
  - apply (at_most_one_accept_after_stop sample_server stop_at_accept
             [ServerRuns (Connects (accepted [] true) phone);
              ServerRuns (Connects (accepted [] true) phone)]).
    vm_compute. reflexivity.
Defined.




(** X18. [stop_server] closes the listening socket only if it is there:
    when it runs before the server thread has made the socket, the
    thread then makes it, finds the flag down and returns without a pass
    through the loop, and the socket stays bound and open from then on. *)
Theorem early_stop_leaves_socket_open
    (p : PhotoServer) (evs more : list event) (o o' : outcome) :
  let s := run_events evs (fresh_system p) in
  main_thread s = Finished ->
  server_thread s = Setup ->
  (forall e, o <> Fails e) ->
  let s2 := run_events (ServerRuns o :: ServerRuns o' :: more) s in
  server_thread s2 = Returned
  /\ handlers s2 = handlers s
  /\ server_socket (self s2)
     = Some (mkListener (host (self s), port (self s)) 5 true false).
Proof.
  intros s Hm Hpc Ho s2.
  destruct (wired_run evs _ (in_step_fresh p) (wired_fresh p)) as [Hw [Hflag _]].
  fold s in Hw, Hflag. rewrite Hm in Hflag.
  pose proof (server_step_cases o s) as (Hm1 & Hrun1 & Hcases1). cbv zeta in *.
  rewrite Hpc in Hcases1.
  destruct Hcases1 as (Hh1 & [(_ & _ & e & -> & _)|(Hpc1 & Hself1 & _)]); [now elim (Ho e)|].
  pose proof (server_step_cases o' (step (ServerRuns o) s)) as (Hm2 & Hrun2 & Hcases2).
  cbv zeta in *. rewrite Hpc1, Hrun1, Hflag in Hcases2.
  destruct Hcases2 as (Hh2 & Hself2 & Hpc2).
  unfold s2. cbn [run_events fold_left].
  fold (run_events more (step (ServerRuns o') (step (ServerRuns o) s))).
  rewrite frozen by congruence.
  split; [exact Hpc2|]. split; [congruence|].
  rewrite Hself2, Hself1. reflexivity.
Qed.

Lemma early_stop_leaves_socket_open_witness :
  server_socket
    (self (run_events [RunCalled; StopPressed; StopGoesOn; ServerRuns Nothing;
                       ServerRuns Nothing; ServerRuns (Connects (accepted [] true) phone)]
             (fresh_system sample_server)))
  = Some (mkListener ("0.0.0.0"%string, 5001) 5 true false).
Proof.
  refine (proj2 (proj2
            (early_stop_leaves_socket_open sample_server
               [RunCalled; StopPressed; StopGoesOn]
               [ServerRuns (Connects (accepted [] true) phone)] Nothing Nothing _ _ _)));
    first [reflexivity | discriminate].
Defined.

(** ** The window *)

Lemma update_display_shown (pil : Pillow) (c : tk_call) (g : window pil) :
  displayable pil c = true ->
  exists ph,
    _update_display c g
    = Ret tt (set_title (Showing (os_path_basename (call_path c)))
                (configure_info_label (info_of c)
                   (keep_reference ph (configure_image_label (Some ph) NoText g)))).
Proof.
  unfold displayable, _update_display, lift_exn. unfold_monad.
  destruct (Image_open pil (call_image c)) as [e|image]; [discriminate|].
  destruct (PhotoImage pil (thumbnail pil (600, 400)%nat image)) as [e|ph]; [discriminate|].
  intros _. exists ph. reflexivity.
Qed.

Lemma update_display_failed (pil : Pillow) (c : tk_call) (g : window pil) :
  displayable pil c = false ->
  exists e,
    _update_display c g
    = Ret tt (configure_image_label None (DisplayError e) (print_display_error e g)).
Proof.
  unfold displayable, _update_display, lift_exn. unfold_monad.
  destruct (Image_open pil (call_image c)) as [e|image]; [intros _; exists e; reflexivity|].
  destruct (PhotoImage pil (thumbnail pil (600, 400)%nat image)) as [e|ph]; [|discriminate].
  intros _. exists e. reflexivity.
Qed.

(** X19. A payload that Pillow cannot turn into a picture does not stop
    the GUI: [_update_display] returns and the error is printed. The
    label's text option is set to the error text, but its image option is
    not cleared: [image=None] is an option tkinter does not pass on, so
    the picture set before stays. The info line, the window title and the
    kept photo reference also go on describing the photo shown before. *)
Theorem display_failure_keeps_last_photo (pil : Pillow) (c : tk_call) (g : window pil) :
  displayable pil c = false ->
  exists e g',
    _update_display c g = Ret tt g'
    /\ label_image g' = label_image g
    /\ label_text_of g' = DisplayError e
    /\ display_errors g' = display_errors g ++ [e]
    /\ info_label g' = info_label g
    /\ title g' = title g
    /\ label_ref g' = label_ref g.
Proof.
  intros Hbad. destruct (update_display_failed pil c g Hbad) as (e & Hrun).
  exists e. eexists. split; [exact Hrun|]. repeat split.
Qed.

Lemma display_failure_keeps_last_photo_witness :
  exists e g',
    _update_display (mkCall hello (partition ++ ["000001.jpg"%string]) phone)
      (@mkWindow toy_pillow (Some jpeg) NoText (Some jpeg)
         (Some (mkInfo "235959.jpg" 4 "192.168.0.7")) (Showing "235959.jpg") [])
    = Ret tt g'
    /\ label_image g' = Some jpeg
    /\ label_text_of g' = DisplayError e
    /\ info_label g' = Some (mkInfo "235959.jpg" 4 "192.168.0.7").
Proof.
  destruct (display_failure_keeps_last_photo toy_pillow
              (mkCall hello (partition ++ ["000001.jpg"%string]) phone)
              (@mkWindow toy_pillow (Some jpeg) NoText (Some jpeg)
                 (Some (mkInfo "235959.jpg" 4 "192.168.0.7")) (Showing "235959.jpg") []))
    as (e & g' & Hrun & Himage & Htext & _ & Hinfo & _).
  - reflexivity.
  - exists e, g'. auto.
Defined.

Lemma run_pending_shows (pil : Pillow) (calls : list tk_call) :
  forall (g : window pil) (before : option tk_call),
    (info_label g = info_of <$> before) ->
    (title g = match before with
               | Some c => Showing (os_path_basename (call_path c))
               | None => Aguardando
               end) ->
    exists g',
      run_pending calls g = Ret tt g'
      /\ info_label g' = info_of <$> last_shown pil calls before
      /\ title g' = match last_shown pil calls before with
                    | Some c => Showing (os_path_basename (call_path c))
                    | None => Aguardando
                    end.
Proof.
  induction calls as [|c calls IH]; intros g before Hinfo Htitle.
  - exists g. auto.
  - cbn [run_pending last_shown]. unfold bind.
    destruct (displayable pil c) eqn:Hc.
    + destruct (update_display_shown pil c g Hc) as (ph & ->).
      apply IH; reflexivity.
    + destruct (update_display_failed pil c g Hc) as (e & ->).
      apply IH; assumption.
Qed.

(** X20. The callbacks that wait are run oldest first and none of them
    can stop the main loop; when they are through, the info line and the
    title of a window that was new describe the last payload that could
    be shown: its file name, its exact size in bytes and the sender's
    address. Payloads that could not be shown leave no trace there. *)
Theorem window_shows_last_displayable (pil : Pillow) (calls : list tk_call) :
  exists g',
    run_pending calls (new_window pil) = Ret tt g'
    /\ info_label g' = info_of <$> last_shown pil calls None
    /\ title g' = match last_shown pil calls None with
                  | Some c => Showing (os_path_basename (call_path c))
                  | None => Aguardando
                  end.
Proof. apply run_pending_shows; reflexivity. Qed.

Lemma complete_transfer_queue
    (self : PhotoServer) (a : address) (w : world) (P : bytes)
    (chunks : list bytes) (rest : list recv_event) :
  nonempty P ->
  len P < 2 ^ 32 ->
  delivers (client w) chunks rest ->
  concat chunks = struct_pack_I (len P) ++ P ->
  storage_ready self w P ->
  exists w',
    _handle_client self a w = Ret tt w'
    /\ tk_queue w' = tk_queue w ++ [mkCall P (save_path self w) a].
Proof.
  intros Hne Hsize Hin Hcat Hready.
  destruct (transfer_arrives w P chunks rest Hsize Hin Hcat)
    as (s1 & s2 & Hhead & Hn & Hread & Hsame).
  pose proof (save_ready self P a _ (ready_after_reads self w P (len P) s1 s2 Hready)) as Hsave.
  rewrite (handle_payload _ _ _ _ _ _ _ _ _ Hhead Hn Hread Hne Hsave).
  unfold acknowledge. eexists. split; [reflexivity|].
  destruct (peer_open _); reflexivity.
Qed.

Lemma last_shown_app (pil : Pillow) (calls : list tk_call) (c : tk_call)
    (before : option tk_call) :
  displayable pil c = true -> last_shown pil (calls ++ [c]) before = Some c.
Proof.
  intros Hc. revert before. induction calls as [|c0 calls IH]; intros before; simpl.
  - now rewrite Hc.
  - apply IH.
Qed.

(** X21. From the wire to the window: when a payload that Pillow can
    decode has arrived in full and has been stored, the main loop, once
    it has run what waits, shows it: the info line has the file name
    HHMMSS.jpg, the number of bytes received and the sender's address,
    and the title has the file name, whatever was waiting before it. *)
Theorem received_photo_is_shown
    (pil : Pillow) (self : PhotoServer) (a : address) (w : world) (P : bytes)
    (chunks : list bytes) (rest : list recv_event) :
  nonempty P ->
  len P < 2 ^ 32 ->
  delivers (client w) chunks rest ->
  concat chunks = struct_pack_I (len P) ++ P ->
  storage_ready self w P ->
  (exists image ph, Image_open pil P = inr image
                    /\ PhotoImage pil (thumbnail pil (600, 400)%nat image) = inr ph) ->
  exists w' g',
    _handle_client self a w = Ret tt w'
    /\ run_pending (tk_queue w') (new_window pil) = Ret tt g'
    /\ info_label g' = Some (mkInfo (strftime_HMS (now w) +:+ ".jpg") (len P) (fst a))
    /\ title g' = Showing (strftime_HMS (now w) +:+ ".jpg").
Proof.
  intros Hne Hsize Hin Hcat Hready (image & ph & Hopen & Hphoto).
  destruct (complete_transfer_queue self a w P chunks rest Hne Hsize Hin Hcat Hready)
    as (w' & Hrun & Hqueue).
  destruct (run_pending_shows pil (tk_queue w') (new_window pil) None eq_refl eq_refl)
    as (g' & Hpending & Hinfo & Htitle).
  exists w', g'. split; [exact Hrun|]. split; [exact Hpending|].
  rewrite Hqueue in Hinfo, Htitle.
  rewrite last_shown_app in Hinfo, Htitle
    by (unfold displayable; simpl; now rewrite Hopen, Hphoto).
  unfold info_of, os_path_basename, save_path, os_path_join in *. simpl in Hinfo, Htitle.
  rewrite last_last in Hinfo, Htitle. auto.
Qed.

Lemma received_photo_is_shown_witness :
  exists w' g',
    _handle_client sample_server phone
      (sample_world ready_disk next_day [Chunk (struct_pack_I 4 ++ jpeg)]) = Ret tt w'
    /\ run_pending (tk_queue w') (new_window toy_pillow) = Ret tt g'
    /\ info_label g' = Some (mkInfo "000001.jpg" 4 "192.168.0.7").
Proof.
  destruct (received_photo_is_shown toy_pillow sample_server phone
              (sample_world ready_disk next_day [Chunk (struct_pack_I 4 ++ jpeg)])
              jpeg [struct_pack_I 4 ++ jpeg] [])
    as (w' & g' & Hrun & Hpending & Hinfo & _).
  - discriminate.
  - vm_compute. reflexivity.
  - split; [repeat constructor; discriminate | reflexivity].
  - reflexivity.
  - repeat split; vm_compute; first [reflexivity | discriminate].
  - exists jpeg, jpeg. split; reflexivity.
  - exists w', g'. auto.
Defined.

(** X22. The header is a round trip: the four bytes the sender writes for
    a length below 2^32 decode to that length, four bytes that decode to
    a number are the ones written for it, and nothing but four bytes
    decodes at all ([struct.error] otherwise). *)
Theorem header_round_trip :
  (forall n, n < 2 ^ 32 -> struct_unpack_I (struct_pack_I n) = inr n)
  /\ (forall (header : bytes) (n : N),
         struct_unpack_I header = inr n -> struct_pack_I n = header /\ n < 2 ^ 32)
  /\ (forall header : bytes, len header <> 4 -> struct_unpack_I header = inl StructError).
Proof.
  split; [exact unpack_pack|]. split.
  - intros header n H. apply unpack_length in H as Hlen.
    destruct header as [|b0 [|b1 [|b2 [|b3 [|b4 h]]]]]; try discriminate.
    split; [now apply pack_unpack|].
    destruct (struct_unpack_I_bound b0 b1 b2 b3) as (n' & Hn' & Hbound).
    rewrite H in Hn'. injection Hn' as ->. change (2 ^ 32) with 4294967296 in *. lia.
  - intros header Hlen.
    destruct header as [|b0 [|b1 [|b2 [|b3 [|b4 h]]]]]; try reflexivity.
    now elim Hlen.
Qed.

Lemma header_round_trip_witness :
  struct_unpack_I (struct_pack_I 305419896) = inr 305419896
  /\ struct_pack_I 305419896 = [x12; x34; x56; x78].
Proof.
  destruct header_round_trip as (Hup & Hpu & _).
  split.
  - apply Hup. vm_compute. reflexivity.
  - apply (Hpu [x12; x34; x56; x78] 305419896). reflexivity.
Defined.


